(** * fix_ai_calls.py: a shallow embedding and its verified properties

    The script reads one TypeScript file, applies two [re.sub] rewrites of the
    [ai.models.generateContent] call, five [str.replace] substitutions of
    [Type.*] tokens, one [re.sub] that strips [model: 'gemini-...',] arguments,
    writes the text back and prints a notice.

    A document is a Python [str]: a list of Unicode code points.  The file
    store holds decoded text; codecs and newline translation of [open] are
    outside the model. *)

From Stdlib Require Import List NArith Arith Lia Bool String Ascii Permutation.
From stdpp Require Import base gmap strings.
Import ListNotations.
Local Open Scope nat_scope.

(* ===================================================================== *)
(** ** Characters and text *)

Definition char := N.
Definition Document := list char.

Definition str (s : string) : Document :=
  List.map N_of_ascii (list_ascii_of_string s).

Definition NL : char := 10%N.
Definition DQUOTE : char := 34%N.
Definition SQUOTE : char := 39%N.
Definition COMMA : char := 44%N.

(** [s.startswith(p)] *)
Fixpoint starts_with (p s : Document) : bool :=
  match p, s with
  | [], _ => true
  | _ :: _, [] => false
  | a :: p', b :: s' => N.eqb a b && starts_with p' s'
  end.

(** [p in s[i:]] for some [i]: the substring test [p in s]. *)
Fixpoint contains (p s : Document) : bool :=
  starts_with p s ||
  match s with
  | [] => false
  | _ :: t => contains p t
  end.

(** Number of positions of [s] at which [p] starts. *)
Fixpoint occurrences (p s : Document) : nat :=
  (if starts_with p s then 1 else 0) +
  match s with
  | [] => 0
  | _ :: t => occurrences p t
  end.

(* ===================================================================== *)
(** ** The substitution engine shared by [re.sub] and [str.replace]

    Both library calls scan the text from the left; at the leftmost position
    where the pattern matches, the matched characters are replaced and the
    scan resumes right after them, so matches never overlap.  A matcher
    looks at the text that starts at the current position and answers with
    the number of characters matched and the text to put in their place.
    Every pattern of the script matches at least one character. *)

Definition matcher := Document -> option (nat * Document).

Fixpoint scan_from (m : matcher) (skip : nat) (s : Document) : Document :=
  match s with
  | [] => []
  | c :: t =>
      match skip with
      | S k => scan_from m k t
      | O =>
          match m s with
          | Some (n, r) => r ++ scan_from m (Nat.pred n) t
          | None => c :: scan_from m 0 t
          end
      end
  end.

Definition scan (m : matcher) (s : Document) : Document := scan_from m 0 s.

(** A literal pattern: [old] itself, replaced by [new]. *)
Definition literal (old new : Document) : matcher :=
  fun s => if starts_with old s then Some (List.length old, new) else None.

(** [s.replace(old, new)] for a non-empty [old]. *)
Definition str_replace (old new s : Document) : Document :=
  scan (literal old new) s.

(** [re.sub(pattern, repl, s)] for a pattern whose matcher is [m]. *)
Definition re_sub (m : matcher) (s : Document) : Document := scan m s.

(* ===================================================================== *)
(** ** The patterns of the script *)

(** [r'const response = await ai\.models\.generateContent\('] : every
    character is a literal, the escapes quote [.] and [(]. *)
Definition CALL_PATTERN : Document :=
  Eval vm_compute in str "const response = await ai.models.generateContent(".

Definition HANDLE : Document :=
  Eval vm_compute in
    str "const model = ai.getGenerativeModel({ model: "
      ++ DQUOTE :: str "gemini-2.0-flash-exp" ++ DQUOTE :: str " });".

Definition CALL_VIA_HANDLE : Document :=
  Eval vm_compute in str "const response = await model.generateContent(".

Definition spaces (n : nat) : Document := List.repeat 32%N n.

(** Replacement text of the first [re.sub] (line 12 of the script). *)
Definition REPL_PRIMARY : Document :=
  Eval vm_compute in HANDLE ++ NL :: spaces 8 ++ CALL_VIA_HANDLE.

(** Replacement text of the second [re.sub] (line 19 of the script). *)
Definition REPL_VARIANT : Document :=
  Eval vm_compute in HANDLE ++ NL :: spaces 5 ++ CALL_VIA_HANDLE.

(** The five [Type.*] tokens, in the order of lines 24-28. *)
Inductive EnumTag := OBJECT | STRING | ARRAY | INTEGER | BOOLEAN.

Definition TYPE_OBJECT : Document := Eval vm_compute in str "Type.OBJECT".
Definition TYPE_STRING : Document := Eval vm_compute in str "Type.STRING".
Definition TYPE_ARRAY : Document := Eval vm_compute in str "Type.ARRAY".
Definition TYPE_INTEGER : Document := Eval vm_compute in str "Type.INTEGER".
Definition TYPE_BOOLEAN : Document := Eval vm_compute in str "Type.BOOLEAN".

Definition Q_OBJECT : Document :=
  Eval vm_compute in DQUOTE :: str "object" ++ [DQUOTE].
Definition Q_STRING : Document :=
  Eval vm_compute in DQUOTE :: str "string" ++ [DQUOTE].
Definition Q_ARRAY : Document :=
  Eval vm_compute in DQUOTE :: str "array" ++ [DQUOTE].
Definition Q_INTEGER : Document :=
  Eval vm_compute in DQUOTE :: str "integer" ++ [DQUOTE].
Definition Q_BOOLEAN : Document :=
  Eval vm_compute in DQUOTE :: str "boolean" ++ [DQUOTE].

Definition token (k : EnumTag) : Document :=
  match k with
  | OBJECT => TYPE_OBJECT
  | STRING => TYPE_STRING
  | ARRAY => TYPE_ARRAY
  | INTEGER => TYPE_INTEGER
  | BOOLEAN => TYPE_BOOLEAN
  end.

Definition quoted (k : EnumTag) : Document :=
  match k with
  | OBJECT => Q_OBJECT
  | STRING => Q_STRING
  | ARRAY => Q_ARRAY
  | INTEGER => Q_INTEGER
  | BOOLEAN => Q_BOOLEAN
  end.

Definition all_tags : list EnumTag := [OBJECT; STRING; ARRAY; INTEGER; BOOLEAN].

(** *** The pattern of line 31

    The key [model: ], a single or double quote, [gemini-], one or more
    characters other than quotes and commas, a quote, a comma, and white
    space as far as it goes. *)

Definition is_quote (c : char) : bool := N.eqb c SQUOTE || N.eqb c DQUOTE.

(** The negated class: neither quote nor comma. *)
Definition lit_char (c : char) : bool := negb (is_quote c || N.eqb c COMMA).

(** [\s] on a [str] pattern: [Py_UNICODE_ISSPACE]. *)
Definition is_space (c : char) : bool :=
  ((9 <=? c) && (c <=? 13) || (28 <=? c) && (c <=? 32) ||
   (c =? 133) || (c =? 160) || (c =? 5760) ||
   (8192 <=? c) && (c <=? 8202) || (c =? 8232) || (c =? 8233) ||
   (c =? 8239) || (c =? 8287) || (c =? 12288))%N.

Definition MODEL_KEY : Document := Eval vm_compute in str "model: ".
Definition GEMINI : Document := Eval vm_compute in str "gemini-".

#[global] Arguments MODEL_KEY : simpl never.
#[global] Arguments GEMINI : simpl never.

(** Consume a literal prefix. *)
Fixpoint eat (p s : Document) : option Document :=
  match p, s with
  | [], _ => Some s
  | _ :: _, [] => None
  | a :: p', b :: s' => if N.eqb a b then eat p' s' else None
  end.

(** Length of the longest prefix whose characters satisfy [f]. *)
Fixpoint run_length (f : char -> bool) (s : Document) : nat :=
  match s with
  | c :: t => if f c then S (run_length f t) else 0
  | [] => 0
  end.

(** Length of the match of the pattern at the start of [s].  The greedy
    class run is followed by a quote, which the class excludes, and the
    greedy [\s*] ends the pattern: giving characters back never turns a
    failure into a match, so the longest runs decide.  [closing] is the
    part of the pattern after a class run of [n] characters. *)
Definition closing (n : nat) (rest : Document) : option nat :=
  match n, rest with
  | S _, q' :: c :: ws =>
      if is_quote q' && N.eqb c COMMA
      then Some (List.length MODEL_KEY + 1 + List.length GEMINI
                 + n + 2 + run_length is_space ws)
      else None
  | _, _ => None
  end.

Definition match_model_param (s : Document) : option nat :=
  match eat MODEL_KEY s with
  | Some (q :: r) =>
      if is_quote q then
        match eat GEMINI r with
        | Some body =>
            let n := run_length lit_char body in
            closing n (List.skipn n body)
        | None => None
        end
      else None
  | _ => None
  end.

Definition model_param : matcher :=
  fun s => match match_model_param s with
           | Some n => Some (n, [])
           | None => None
           end.

(* ===================================================================== *)
(** ** The transformation steps (lines 10-31) *)

Definition rewrite_primary (content : Document) : Document :=
  re_sub (literal CALL_PATTERN REPL_PRIMARY) content.

Definition rewrite_variant (content : Document) : Document :=
  re_sub (literal CALL_PATTERN REPL_VARIANT) content.

Definition replace_tag (k : EnumTag) (content : Document) : Document :=
  str_replace (token k) (quoted k) content.

Definition normalize_types (content : Document) : Document :=
  replace_tag BOOLEAN
    (replace_tag INTEGER
      (replace_tag ARRAY
        (replace_tag STRING
          (replace_tag OBJECT content)))).

Definition strip_model_param (content : Document) : Document :=
  re_sub model_param content.

Definition transform (content : Document) : Document :=
  strip_model_param
    (normalize_types
      (rewrite_variant
        (rewrite_primary content))).

(** [re.search(pattern, s) is not None] *)
Fixpoint finds (m : matcher) (s : Document) : bool :=
  match m s with Some _ => true | None => false end ||
  match s with
  | [] => false
  | _ :: t => finds m t
  end.

(* ===================================================================== *)
(** ** The run (lines 6-7 and 34-37): load, transform, save, notify

    The file store maps a path to a file; a file that is absent, or present
    but not readable (not writable), makes [open] raise [IOError].  Opening
    for writing fails before the file is truncated.  Every file access and
    the [print] are recorded in a trace. *)

Record file := File { data : Document; readable : bool; writable : bool }.

Inductive event :=
  | Read (path : string)
  | Write (path : string) (text : Document)
  | Print (message : string).

Inductive outcome := Done | IOError.

Definition PATH : string := "src/IDE/services/aiService.ts".
Definition NOTICE : string := "Fixed AI service calls!".

Record world := World { files : gmap string file; trace : list event }.

(** A small error monad over the world. *)
Definition io (A : Type) : Type := world -> (A + outcome) * world.

Definition ret {A} (a : A) : io A := fun w => (inl a, w).

Definition bind {A B} (c : io A) (k : A -> io B) : io B :=
  fun w => match c w with
           | (inl a, w') => k a w'
           | (inr e, w') => (inr e, w')
           end.

Notation "x <-- c ;; k" := (bind c (fun x => k))
  (at level 100, c at next level, right associativity).

Definition log (e : event) (w : world) : world :=
  World (files w) (trace w ++ [e]).

(** [with open(path, 'r') as f: f.read()] *)
Definition read_file (path : string) : io Document :=
  fun w => match files w !! path with
           | Some f =>
               if readable f then (inl (data f), log (Read path) w)
               else (inr IOError, w)
           | None => (inr IOError, w)
           end.

(** [with open(path, 'w') as f: f.write(text)]: creates the file when it
    does not exist. *)
Definition write_file (path : string) (text : Document) : io unit :=
  fun w => match files w !! path with
           | Some f =>
               if writable f
               then (inl tt,
                     log (Write path text)
                       (World (<[path := File text (readable f) true]> (files w))
                              (trace w)))
               else (inr IOError, w)
           | None =>
               (inl tt,
                log (Write path text)
                  (World (<[path := File text true true]> (files w)) (trace w)))
           end.

Definition print (message : string) : io unit :=
  fun w => (inl tt, log (Print message) w).

Definition run : io unit :=
  content <-- read_file PATH ;;
  _ <-- write_file PATH (transform content) ;;
  print NOTICE.

(* ===================================================================== *)
(** ** Notions used to state the properties *)

(** [p] and [u] agree as far as both go. *)
Fixpoint agree (p u : Document) : bool :=
  match p, u with
  | a :: p', b :: u' => N.eqb a b && agree p' u'
  | _, _ => true
  end.

(** No occurrence of [p] can start inside a copy of [r], whatever follows. *)
Definition apart (p r : Document) : bool :=
  List.forallb (fun i => negb (agree p (List.skipn i r)))
    (List.seq 0 (length r)).

(** A matcher is sound when it matches at least one character and never
    on the empty text. *)
Definition sound (m : matcher) : Prop :=
  forall s n r, m s = Some (n, r) -> 0 < n /\ s <> [].

(** The pattern matches nowhere in [s]. *)
Definition never (m : matcher) (s : Document) : Prop :=
  forall i, m (List.skipn i s) = None.

(** Every replacement text starts with a character foreign to [p]. *)
Definition fresh_head (m : matcher) (p : Document) : Prop :=
  forall s n r, m s = Some (n, r) ->
    exists c r', r = c :: r' /\ ~ List.In c p.

(** No occurrence of [p] starts inside a replacement text. *)
Definition clear_of (m : matcher) (p : Document) : Prop :=
  forall s n r, m s = Some (n, r) ->
    forall i z, i < length r -> starts_with p (List.skipn i r ++ z) = false.

(** *** Literal patterns *)

(** The first character of [new] does not occur in [p]. *)
Definition head_foreign (new p : Document) : bool :=
  match new with
  | c :: _ => negb (List.existsb (N.eqb c) p)
  | [] => false
  end.

(** The events a run may add to the trace. *)
Definition on_target (e : event) : Prop :=
  match e with
  | Read p => p = PATH
  | Write p _ => p = PATH
  | Print msg => msg = NOTICE
  end.

(** *** Text that a substitution leaves in place *)

(** No match starts inside a copy of [w], whatever follows it. *)
Definition untouched (m : matcher) (w : Document) : Prop :=
  forall k z, k < length w -> m (List.skipn k w ++ z) = None.

(** No match that starts before a copy of [w] reaches into it. *)
Definition stops_before (m : matcher) (w : Document) : Prop :=
  forall a z n r, m (a ++ w ++ z) = Some (n, r) -> a <> [] -> n <= length a.

(** What follows cannot continue a match that began before it. *)
Record blocks (K : Document) : Prop := {
  blocks_key : forall k, 1 <= k -> k < length MODEL_KEY ->
               eat (List.skipn k MODEL_KEY) K = None;
  blocks_gemini : forall k, k < length GEMINI ->
                  eat (List.skipn k GEMINI) K = None;
  blocks_head : exists x K', K = x :: K' /\ lit_char x = true
                             /\ is_space x = false;
  blocks_class : exists q c K',
      List.skipn (run_length lit_char K) K = q :: c :: K'
      /\ is_quote q && N.eqb c COMMA = false
}.

(** The text [known], whatever follows it, blocks a match begun earlier. *)
Definition blocks_check (known : Document) : bool :=
  List.forallb (fun k => negb (agree (List.skipn k MODEL_KEY) known))
    (List.seq 1 (length MODEL_KEY - 1))
  && List.forallb (fun k => negb (agree (List.skipn k GEMINI) known))
       (List.seq 0 (length GEMINI))
  && match known with
     | x :: _ => lit_char x && negb (is_space x)
     | [] => false
     end
  && match List.skipn (run_length lit_char known) known with
     | q :: c :: _ => negb (is_quote q && N.eqb c COMMA)
     | _ => false
     end.

(** Inside [w] the key [model: ] can only begin at offset [k0]. *)
Definition key_only_at (k0 : nat) (w : Document) : bool :=
  List.forallb
    (fun k => negb (agree MODEL_KEY (List.skipn k w)) || Nat.eqb k k0)
    (List.seq 0 (length w)).

(** *** Model arguments *)

(** [model: <q>gemini-<lit><q'>], without what follows the closing quote. *)
Definition fragment (q : char) (lit : Document) (q' : char) : Document :=
  MODEL_KEY ++ q :: GEMINI ++ lit ++ [q'].

(** The argument the rewrite puts into the handle. *)
Definition FLASH_EXP : Document := Eval vm_compute in str "2.0-flash-exp".
Definition INSERTED_ARG : Document := fragment DQUOTE FLASH_EXP DQUOTE.

(** [lit] is a non-empty run of the class. *)
Definition literal_body (lit : Document) : Prop :=
  lit <> [] /\ List.forallb lit_char lit = true.

(** A text that does not begin with white space. *)
Definition no_leading_space (v : Document) : Prop :=
  match v with
  | [] => True
  | x :: _ => is_space x = false
  end.

(** *** Step 4 as one scan for all tokens at once *)

(** The first token of [ks] that starts [s] and its quoted string. *)
Fixpoint any_token (ks : list EnumTag) : matcher :=
  fun s =>
    match ks with
    | [] => None
    | k :: ks' =>
        if starts_with (token k) s
        then Some (length (token k), quoted k)
        else any_token ks' s
    end.

(** Substitutions one after the other, in the order of [ks]. *)
Definition replace_in_order (ks : list EnumTag) (s : Document) : Document :=
  List.fold_left (fun acc k => replace_tag k acc) ks s.

(** No occurrence of a token of [ks] starts strictly inside an occurrence of
    the token [k] in [s]. *)
Definition inner_free (ks : list EnumTag) (k : EnumTag) (s : Document) : Prop :=
  forall p i j, List.In j ks -> 0 < i -> i < length (token k) ->
    starts_with (token k) (List.skipn p s) = true ->
    starts_with (token j) (List.skipn (p + i) s) = false.

(** *** When occurrences overlap

    [Type.OBJECT] ends with the letter every token begins with: an occurrence
    of a token can begin on the last character of an occurrence of
    [Type.OBJECT], and nowhere else inside a token. *)

Definition TYPE_OBJEC : Document := Eval vm_compute in str "Type.OBJEC".

(** No token begins on the final [T] of an occurrence of [Type.OBJECT]. *)
Definition no_overlap (s : Document) : Prop :=
  forall j, contains (TYPE_OBJEC ++ token j) s = false.

(** *** The document as stretches of other text between token occurrences *)

(** [g0], then for every [(k, g)] the text [f k] followed by [g]. *)
Fixpoint assemble (f : EnumTag -> Document) (g0 : Document)
    (parts : list (EnumTag * Document)) : Document :=
  match parts with
  | [] => g0
  | (k, g) :: rest => g0 ++ f k ++ assemble f g rest
  end.

(** No token occurs in [g]. *)
Definition token_free (g : Document) : Prop :=
  forall k, contains (token k) g = false.

(** *** A pattern that cannot overlap itself *)

(** No occurrence of [p] begins inside another occurrence of [p]. *)
Definition self_apart (p : Document) : bool :=
  List.forallb (fun i => negb (agree p (List.skipn i p)))
    (List.seq 1 (length p - 1)).


(* ===================================================================== *)
(** ** Sample documents *)

Definition plain_sample : Document :=
  Eval vm_compute in str "const x = ai.models.list(); // Type.OTHER, model: none".

Definition sample_world : world :=
  World {[ PATH := File plain_sample true true ]} [].

Definition two_calls : Document :=
  Eval vm_compute in
    spaces 4 ++ CALL_PATTERN ++ str "{ contents: a });" ++ NL :: spaces 4
      ++ str "const model = 1; " ++ HANDLE ++ str " // Type.ARRAY".

Definition OVERLAPPING : Document :=
  Eval vm_compute in str "Type.OBJECType.STRING".

Definition schema_sample : list (EnumTag * Document) :=
  [(OBJECT, str ", items: "); (ARRAY, str " of "); (STRING, str "|");
   (INTEGER, str "|"); (BOOLEAN, str " }")].

Definition tags_sample : Document :=
  Eval vm_compute in str "a: Type.STRING, b: Type.OBJECT, c: Type.BOOLEAN".

Definition GEMINI_PRO_ARG : Document :=
  Eval vm_compute in fragment DQUOTE (str "pro") DQUOTE.

Definition ONLY_ARG : Document :=
  Eval vm_compute in str "{ " ++ GEMINI_PRO_ARG ++ str " }".

Definition call_head : Document :=
  Eval vm_compute in str "generateContent({" ++ NL :: spaces 8.

Definition call_tail : Document :=
  Eval vm_compute in str "contents: prompt," ++ NL :: spaces 4 ++ str "});".

Definition bare_call : Document :=
  Eval vm_compute in spaces 4 ++ CALL_PATTERN ++ str "{ contents: prompt });".

Definition LAST_ARG_CALL : Document :=
  Eval vm_compute in
    spaces 4 ++ CALL_PATTERN ++ str "{" ++ NL :: spaces 8
      ++ GEMINI_PRO_ARG ++ NL :: spaces 4 ++ str "});".

Definition FIRST_ARG_CALL : Document :=
  Eval vm_compute in
    spaces 4 ++ CALL_PATTERN ++ str "{" ++ NL :: spaces 8
      ++ fragment DQUOTE (str "2.5-flash") DQUOTE ++ COMMA :: NL :: spaces 8
      ++ str "contents: prompt," ++ NL :: spaces 4 ++ str "});".

Definition SPLICED : Document :=
  Eval vm_compute in
    CALL_PATTERN ++ str "const response = await ai.mod"
      ++ fragment DQUOTE (str "x") DQUOTE ++ COMMA :: str "els.generateContent(".

Definition TYPED_CALL : Document :=
  Eval vm_compute in
    spaces 4 ++ CALL_PATTERN ++ str "{ contents: prompt, type: Type.OBJECT });".

(* ===================================================================== *)
(** ** Prefixes and occurrences *)

Lemma list_length_ind (P : Document -> Prop) :
  (forall s, (forall t, length t < length s -> P t) -> P s) -> forall s, P s.
Proof.
  intros step.
  assert (H : forall n s, length s < n -> P s).
  { induction n as [|n IH]; intros s Hs; [lia|].
    apply step. intros t Ht. apply IH. lia. }
  intros s. apply (H (S (length s))). lia.
Qed.

Lemma starts_with_nil_l (s : Document) : starts_with [] s = true.
Proof. destruct s; reflexivity. Qed.

Lemma starts_with_cons (a : char) (p : Document) (b : char) (s : Document) :
  starts_with (a :: p) (b :: s) = true <-> a = b /\ starts_with p s = true.
Proof.
  simpl. rewrite andb_true_iff, N.eqb_eq. tauto.
Qed.

Lemma starts_with_app (p z : Document) : starts_with p (p ++ z) = true.
Proof.
  induction p as [|a p IH]; simpl.
  - reflexivity.
  - now rewrite N.eqb_refl.
Qed.

Lemma starts_with_split (p s : Document) :
  starts_with p s = true -> s = p ++ List.skipn (length p) s.
Proof.
  revert s. induction p as [|a p IH]; intros [|b s] H; simpl in *;
    try reflexivity; try discriminate.
  apply andb_true_iff in H as [Hab Hp]. apply N.eqb_eq in Hab as ->.
  f_equal. now apply IH.
Qed.

Lemma starts_with_length (p s : Document) :
  starts_with p s = true -> length p <= length s.
Proof.
  intros H. rewrite (starts_with_split _ _ H), length_app. lia.
Qed.

(** Only the first [length p] characters matter. *)
Lemma starts_with_app_l (p u z z' : Document) :
  length p <= length u ->
  starts_with p (u ++ z) = starts_with p (u ++ z').
Proof.
  revert u. induction p as [|a p IH]; intros [|b u] Hl; simpl in *;
    try reflexivity; try lia.
  f_equal. apply IH. lia.
Qed.

Lemma contains_nil_l (s : Document) : contains [] s = true.
Proof. destruct s; reflexivity. Qed.

Lemma contains_cons (p : Document) (c : char) (t : Document) :
  contains p (c :: t) = starts_with p (c :: t) || contains p t.
Proof. reflexivity. Qed.

Lemma contains_tail (p : Document) (c : char) (t : Document) :
  contains p t = true -> contains p (c :: t) = true.
Proof. intros H. simpl. rewrite H. apply orb_true_r. Qed.

Lemma contains_skipn (p s : Document) (i : nat) :
  contains p (List.skipn i s) = true -> contains p s = true.
Proof.
  revert s. induction i as [|i IH]; intros s H; [exact H|].
  destruct s as [|c t]; [exact H|].
  simpl in H. simpl. rewrite (IH _ H). apply orb_true_r.
Qed.

Lemma contains_at (p s : Document) (i : nat) :
  starts_with p (List.skipn i s) = true -> contains p s = true.
Proof.
  intros H. apply (contains_skipn p s i).
  destruct (List.skipn i s); simpl in *; now rewrite H.
Qed.

Lemma contains_position (p s : Document) :
  contains p s = true -> exists i, starts_with p (List.skipn i s) = true.
Proof.
  induction s as [|c t IH]; simpl; intros H.
  - exists 0. now rewrite orb_false_r in H.
  - apply orb_true_iff in H as [H|H].
    + now exists 0.
    + destruct (IH H) as [i Hi]. now exists (S i).
Qed.

Lemma absent_at (p s : Document) (i : nat) :
  contains p s = false -> starts_with p (List.skipn i s) = false.
Proof.
  intros H. destruct (starts_with p (List.skipn i s)) eqn:E; [|reflexivity].
  now rewrite (contains_at _ _ _ E) in H.
Qed.

Lemma absent_skipn (p s : Document) (i : nat) :
  contains p s = false -> contains p (List.skipn i s) = false.
Proof.
  intros H. destruct (contains p (List.skipn i s)) eqn:E; [|reflexivity].
  now rewrite (contains_skipn _ _ _ E) in H.
Qed.

Lemma contains_app_r (p u s : Document) :
  contains p s = true -> contains p (u ++ s) = true.
Proof.
  intros H. apply (contains_skipn p (u ++ s) (length u)).
  now rewrite List.skipn_app, List.skipn_all, Nat.sub_diag.
Qed.

Lemma contains_app_inv (p u s : Document) :
  contains p (u ++ s) = true ->
  (exists i, i < length u /\ starts_with p (List.skipn i u ++ s) = true)
  \/ contains p s = true.
Proof.
  induction u as [|c u IH]; simpl; intros H; [now right|].
  apply orb_true_iff in H as [H|H].
  - left. exists 0. split; [lia|exact H].
  - destruct (IH H) as [(i & Hi & Hs)|Hs]; [left|now right].
    exists (S i). split; [lia|exact Hs].
Qed.

Lemma starts_with_agree (p u z : Document) :
  starts_with p (u ++ z) = true -> agree p u = true.
Proof.
  revert u. induction p as [|a p IH]; intros [|b u] H; simpl in *;
    try reflexivity.
  apply andb_true_iff in H as [-> H]. simpl. now apply IH.
Qed.

Lemma apart_spec (p r : Document) :
  apart p r = true ->
  forall i z, i < length r -> starts_with p (List.skipn i r ++ z) = false.
Proof.
  unfold apart. rewrite List.forallb_forall. intros H i z Hi.
  assert (Hin : List.In i (List.seq 0 (length r))) by (apply List.in_seq; lia).
  specialize (H i Hin). apply negb_true_iff in H.
  destruct (starts_with p (List.skipn i r ++ z)) eqn:E; [|reflexivity].
  now rewrite (starts_with_agree _ _ _ E) in H.
Qed.

(* ===================================================================== *)
(** ** The scan, one step at a time *)

Lemma scan_from_skip (m : matcher) (k : nat) (s : Document) :
  scan_from m k s = scan m (List.skipn k s).
Proof.
  revert k. induction s as [|c t IH]; intros [|k]; try reflexivity.
  simpl. apply IH.
Qed.

Lemma scan_nil (m : matcher) : scan m [] = [].
Proof. reflexivity. Qed.

Lemma scan_hit (m : matcher) (s : Document) (n : nat) (r : Document) :
  m s = Some (n, r) -> 0 < n -> s <> [] ->
  scan m s = r ++ scan m (List.skipn n s).
Proof.
  intros Hm Hn Hs. destruct s as [|c t]; [congruence|].
  unfold scan at 1. simpl. rewrite Hm, scan_from_skip.
  destruct n as [|n]; [lia|reflexivity].
Qed.

Lemma scan_miss (m : matcher) (c : char) (t : Document) :
  m (c :: t) = None -> scan m (c :: t) = c :: scan m t.
Proof.
  intros Hm. unfold scan. simpl. now rewrite Hm.
Qed.

Lemma literal_sound (old new : Document) : old <> [] -> sound (literal old new).
Proof.
  intros Hold s n r. unfold literal.
  destruct (starts_with old s) eqn:E; [|discriminate].
  intros [= <- <-]. destruct old as [|a old]; [congruence|].
  split; [simpl; lia|]. destruct s; [discriminate|congruence].
Qed.

Lemma literal_hit (old new s : Document) :
  starts_with old s = true -> literal old new s = Some (length old, new).
Proof. unfold literal. now intros ->. Qed.

Lemma literal_miss (old new s : Document) :
  starts_with old s = false -> literal old new s = None.
Proof. unfold literal. now intros ->. Qed.

Lemma never_tail (m : matcher) (c : char) (t : Document) :
  never m (c :: t) -> never m t.
Proof. intros H i. exact (H (S i)). Qed.

(** Zero matches, zero replacements. *)
Lemma scan_never (m : matcher) (s : Document) : never m s -> scan m s = s.
Proof.
  induction s as [|c t IH]; intros H; [reflexivity|].
  rewrite scan_miss by exact (H 0). f_equal. apply IH.
  exact (never_tail _ _ _ H).
Qed.

Lemma literal_never (old new s : Document) :
  contains old s = false -> never (literal old new) s.
Proof.
  intros H i. apply literal_miss. now apply absent_at.
Qed.

(** A stretch in which no match starts is copied. *)
Lemma scan_copy (m : matcher) (u z : Document) :
  (forall k, k < length u -> m (List.skipn k u ++ z) = None) ->
  scan m (u ++ z) = u ++ scan m z.
Proof.
  induction u as [|a u IH]; intros H; [reflexivity|].
  simpl. rewrite scan_miss by exact (H 0 ltac:(simpl; lia)).
  f_equal. apply IH. intros k Hk. apply (H (S k)). simpl. lia.
Qed.

(** What the output starts with, the input started with. *)
Lemma scan_starts_with (m : matcher) (p s : Document) :
  sound m -> fresh_head m p ->
  starts_with p (scan m s) = true -> starts_with p s = true.
Proof.
  intros Hs. revert p.
  induction s as [|c t IH]; intros p Hf H; [exact H|].
  destruct p as [|a p]; [reflexivity|].
  destruct (m (c :: t)) as [[n r]|] eqn:Hm.
  - destruct (Hs _ _ _ Hm) as [Hn Hne].
    rewrite (scan_hit _ _ _ _ Hm Hn Hne) in H.
    destruct (Hf _ _ _ Hm) as (x & r' & -> & Hx).
    simpl in H. apply andb_true_iff in H as [E _].
    apply N.eqb_eq in E as ->. exfalso. apply Hx. now left.
  - rewrite (scan_miss _ _ _ Hm) in H.
    apply starts_with_cons in H as [-> H]. apply starts_with_cons.
    split; [reflexivity|]. apply IH; [|exact H].
    intros s n r Hsm. destruct (Hf _ _ _ Hsm) as (x & r' & -> & Hx).
    exists x, r'. split; [reflexivity|]. intros Hin. apply Hx. now right.
Qed.

(** A substitution creates no occurrence of [p]. *)
Lemma scan_creates_none (m : matcher) (p s : Document) :
  sound m -> fresh_head m p -> clear_of m p ->
  contains p (scan m s) = true -> contains p s = true.
Proof.
  intros Hs Hf Hc. induction s as [s IH] using list_length_ind.
  destruct s as [|c t]; [easy|].
  destruct (m (c :: t)) as [[n r]|] eqn:Hm.
  - destruct (Hs _ _ _ Hm) as [Hn Hne].
    rewrite (scan_hit _ _ _ _ Hm Hn Hne). intros H.
    apply contains_app_inv in H as [(i & Hi & H)|H].
    + now rewrite (Hc _ _ _ Hm i _ Hi) in H.
    + apply (contains_skipn p (c :: t) n). apply IH; [|exact H].
      rewrite List.length_skipn. simpl. lia.
  - rewrite (scan_miss _ _ _ Hm). intros H.
    change (starts_with p (c :: scan m t) || contains p (scan m t) = true) in H.
    apply orb_true_iff in H as [H|H].
    + rewrite <- (scan_miss _ _ _ Hm) in H.
      apply (contains_at p (c :: t) 0). simpl.
      now apply (scan_starts_with m).
    + apply contains_tail. apply IH; [simpl; lia|exact H].
Qed.

Lemma head_foreign_spec (new p : Document) :
  head_foreign new p = true ->
  exists c r', new = c :: r' /\ ~ List.In c p.
Proof.
  destruct new as [|c r']; [discriminate|]. simpl. intros H.
  exists c, r'. split; [reflexivity|]. intros Hin.
  apply negb_true_iff in H.
  assert (List.existsb (N.eqb c) p = true); [|congruence].
  apply List.existsb_exists. exists c. split; [exact Hin|apply N.eqb_refl].
Qed.

Lemma literal_fresh_head (old new p : Document) :
  head_foreign new p = true -> fresh_head (literal old new) p.
Proof.
  intros H s n r. unfold literal.
  destruct (starts_with old s); [|discriminate].
  intros [= <- <-]. now apply head_foreign_spec.
Qed.

Lemma literal_clear_of (old new p : Document) :
  apart p new = true -> clear_of (literal old new) p.
Proof.
  intros H s n r. unfold literal.
  destruct (starts_with old s); [|discriminate].
  intros [= <- <-]. now apply apart_spec.
Qed.

(** After [s.replace(old, new)] no occurrence of [old] is left, as long as
    [new] cannot complete or begin one. *)
Lemma str_replace_leaves_none (old new s : Document) :
  old <> [] ->
  head_foreign new (List.tl old) = true ->
  apart old new = true ->
  contains old (str_replace old new s) = false.
Proof.
  intros Hold Hh Ha. unfold str_replace.
  pose proof (literal_sound old new Hold) as Hs.
  induction s as [s IH] using list_length_ind.
  destruct s as [|c t].
  - rewrite scan_nil. destruct old; [congruence|reflexivity].
  - destruct (literal old new (c :: t)) as [[n r]|] eqn:Hm.
    + destruct (Hs _ _ _ Hm) as [Hn Hne].
      rewrite (scan_hit _ _ _ _ Hm Hn Hne).
      destruct (contains old (r ++ _)) eqn:E; [|reflexivity].
      apply contains_app_inv in E as [(i & Hi & E)|E].
      * now rewrite (literal_clear_of old new old Ha _ _ _ Hm i _ Hi) in E.
      * rewrite IH in E; [discriminate|].
        rewrite List.length_skipn. simpl. lia.
    + rewrite (scan_miss _ _ _ Hm).
      change (starts_with old (c :: scan (literal old new) t)
              || contains old (scan (literal old new) t) = false).
      rewrite IH by (simpl; lia). rewrite orb_false_r.
      destruct (starts_with old (c :: scan _ t)) eqn:E; [|reflexivity].
      destruct old as [|a old']; [congruence|].
      apply starts_with_cons in E as [-> E].
      apply (scan_starts_with _ _ _ Hs (literal_fresh_head _ _ _ Hh)) in E.
      unfold literal in Hm. simpl in Hm, E. rewrite N.eqb_refl, E in Hm.
      discriminate.
Qed.

(** [s.replace(old, new)] creates no occurrence of [p]. *)
Lemma str_replace_creates_none (old new p s : Document) :
  old <> [] ->
  head_foreign new p = true ->
  apart p new = true ->
  contains p s = false -> contains p (str_replace old new s) = false.
Proof.
  intros Hold Hh Ha Hp.
  destruct (contains p (str_replace old new s)) eqn:E; [|reflexivity].
  apply scan_creates_none in E.
  - congruence.
  - now apply literal_sound.
  - now apply literal_fresh_head.
  - now apply literal_clear_of.
Qed.

Lemma str_replace_absent (old new s : Document) :
  contains old s = false -> str_replace old new s = s.
Proof.
  intros H. apply scan_never. now apply literal_never.
Qed.

(* ===================================================================== *)
(** ** Steps 2 and 3: the two rewrites of the call *)

Lemma CALL_PATTERN_nonempty : CALL_PATTERN <> [].
Proof. discriminate. Qed.

Lemma rewrite_primary_consumes (s : Document) :
  contains CALL_PATTERN (rewrite_primary s) = false.
Proof.
  apply str_replace_leaves_none;
    [exact CALL_PATTERN_nonempty|reflexivity|reflexivity].
Qed.

Lemma variant_noop (s : Document) :
  rewrite_variant (rewrite_primary s) = rewrite_primary s
  /\ never (literal CALL_PATTERN REPL_VARIANT) (rewrite_primary s).
Proof.
  pose proof (rewrite_primary_consumes s) as H. split.
  - unfold rewrite_variant, re_sub. apply scan_never. now apply literal_never.
  - now apply literal_never.
Qed.

(** C7: on any document, the second rewrite finds nothing to replace in the
    output of the first: applying the variant after the primary rewrite gives
    the text of the primary rewrite alone, and that text has no occurrence of
    the shared pattern left. *)
Theorem variant_after_primary_is_noop (s : Document) :
  rewrite_variant (rewrite_primary s) = rewrite_primary s
  /\ never (literal CALL_PATTERN REPL_VARIANT) (rewrite_primary s)
  /\ contains CALL_PATTERN (rewrite_primary s) = false.
Proof.
  destruct (variant_noop s) as [H1 H2].
  split; [exact H1|]. split; [exact H2|]. apply rewrite_primary_consumes.
Qed.

(* ===================================================================== *)
(** ** Documents without any target pattern *)

Lemma finds_never (m : matcher) (s : Document) :
  finds m s = false -> never m s.
Proof.
  induction s as [|c t IH]; simpl; intros H i.
  - destruct i; simpl; now destruct (m []).
  - apply orb_false_iff in H as [H0 Ht].
    destruct i as [|i]; simpl.
    + now destruct (m (c :: t)).
    + now apply IH.
Qed.

Lemma replace_tag_absent (k : EnumTag) (s : Document) :
  contains (token k) s = false -> replace_tag k s = s.
Proof. apply str_replace_absent. Qed.

Lemma rewrite_primary_absent (s : Document) :
  contains CALL_PATTERN s = false -> rewrite_primary s = s.
Proof. apply str_replace_absent. Qed.

Lemma rewrite_variant_absent (s : Document) :
  contains CALL_PATTERN s = false -> rewrite_variant s = s.
Proof. apply str_replace_absent. Qed.

Lemma normalize_types_absent (s : Document) :
  (forall k, contains (token k) s = false) -> normalize_types s = s.
Proof.
  intros H. unfold normalize_types.
  rewrite (replace_tag_absent OBJECT s (H _)).
  rewrite (replace_tag_absent STRING s (H _)).
  rewrite (replace_tag_absent ARRAY s (H _)).
  rewrite (replace_tag_absent INTEGER s (H _)).
  exact (replace_tag_absent BOOLEAN s (H _)).
Qed.

Lemma strip_model_param_absent (s : Document) :
  finds model_param s = false -> strip_model_param s = s.
Proof.
  intros H. apply scan_never. now apply finds_never.
Qed.

Lemma transform_fixes_clean (s : Document) :
  contains CALL_PATTERN s = false ->
  (forall k, contains (token k) s = false) ->
  finds model_param s = false ->
  transform s = s.
Proof.
  intros Hc Ht Hm. unfold transform.
  rewrite (rewrite_primary_absent s Hc), (rewrite_variant_absent s Hc).
  rewrite (normalize_types_absent s Ht).
  now apply strip_model_param_absent.
Qed.

(** C4: a document with no occurrence of the call pattern (in particular one
    with no [ai.models.generateContent] call), none of the five [Type.*]
    tokens and no fragment matched by the stripping pattern comes out of the
    whole pipeline unchanged, character for character. *)
Theorem transform_without_patterns (s : Document) :
  contains CALL_PATTERN s = false ->
  (forall k, contains (token k) s = false) ->
  finds model_param s = false ->
  transform s = s.
Proof.
  apply transform_fixes_clean.
Qed.

Lemma transform_without_patterns_witness : transform plain_sample = plain_sample.
Proof.
  apply transform_without_patterns.
  - reflexivity.
  - intros []; reflexivity.
  - reflexivity.
Defined.

(* ===================================================================== *)
(** ** The run and the file store *)

Lemma run_unfold (w : world) :
  run w =
  match files w !! PATH with
  | Some f =>
      if readable f then
        if writable f then
          (inl tt,
           World (<[PATH := File (transform (data f)) (readable f) true]> (files w))
                 (trace w ++ [Read PATH; Write PATH (transform (data f));
                              Print NOTICE]))
        else (inr IOError, log (Read PATH) w)
      else (inr IOError, w)
  | None => (inr IOError, w)
  end.
Proof.
  unfold run, bind, read_file, write_file, print, log. simpl.
  destruct (files w !! PATH) as [f|] eqn:E; [|reflexivity].
  destruct (readable f) eqn:Er; [|reflexivity]. simpl. rewrite E.
  destruct (writable f); [|reflexivity]. simpl.
  now rewrite Er, <- !app_assoc.
Qed.

(** C6: when the target file is absent, or present but unreadable, the run
    ends in [IOError] with the world exactly as it was: no file is created
    or modified and nothing, a write least of all, is added to the trace. *)
Theorem run_fails_before_write (w : world) :
  (files w !! PATH = None
   \/ exists f, files w !! PATH = Some f /\ readable f = false) ->
  run w = (inr IOError, w).
Proof.
  rewrite run_unfold. intros [->|(f & -> & ->)]; reflexivity.
Qed.

Lemma run_fails_before_write_witness :
  run (World ∅ []) = (inr IOError, World ∅ []).
Proof.
  apply run_fails_before_write. left. reflexivity.
Defined.

(** C9: whatever the world, a run leaves every file other than the one at
    the fixed path as it was, and every event it adds is a read of that
    path, a write to it or the notice; a successful run has read that file
    once and then written the transformed text over it. *)
Theorem run_touches_one_file (w : world) :
  (forall p, p <> PATH -> files (snd (run w)) !! p = files w !! p)
  /\ (exists added, trace (snd (run w)) = trace w ++ added
                    /\ List.Forall on_target added)
  /\ (fst (run w) = inl tt ->
      exists f, files w !! PATH = Some f
        /\ files (snd (run w)) !! PATH
           = Some (File (transform (data f)) (readable f) true)
        /\ trace (snd (run w))
           = trace w ++ [Read PATH; Write PATH (transform (data f));
                         Print NOTICE]).
Proof.
  rewrite run_unfold.
  destruct (files w !! PATH) as [f|] eqn:E.
  2:{ simpl. split; [reflexivity|]. split; [|discriminate].
      exists []. now rewrite app_nil_r. }
  destruct (readable f) eqn:Er.
  2:{ simpl. split; [reflexivity|]. split; [|discriminate].
      exists []. now rewrite app_nil_r. }
  destruct (writable f) eqn:Ew; simpl.
  - split; [|split].
    + intros p Hp. now rewrite lookup_insert_ne.
    + eexists. split; [reflexivity|]. repeat constructor.
    + intros _. exists f. rewrite Er. split; [reflexivity|].
      split; [|reflexivity]. now rewrite lookup_insert_eq.
  - split; [reflexivity|]. split; [|discriminate].
    eexists. split; [reflexivity|]. repeat constructor.
Qed.

Lemma run_touches_one_file_witness :
  exists f, files sample_world !! PATH = Some f
    /\ files (snd (run sample_world)) !! PATH
       = Some (File (transform (data f)) (readable f) true)
    /\ trace (snd (run sample_world))
       = trace sample_world ++ [Read PATH; Write PATH (transform (data f));
                                Print NOTICE].
Proof.
  apply (proj2 (proj2 (run_touches_one_file sample_world))).
  rewrite run_unfold. reflexivity.
Defined.

(* ===================================================================== *)
(** ** Text that a substitution leaves in place *)

Lemma scan_keeps (m : matcher) (w s : Document) :
  sound m -> untouched m w -> stops_before m w ->
  contains w s = true -> contains w (scan m s) = true.
Proof.
  intros Hs Hu Hb. induction s as [s IH] using list_length_ind.
  intros H. destruct s as [|c t].
  - destruct w; [reflexivity|discriminate].
  - destruct (starts_with w (c :: t)) eqn:E.
    + rewrite (starts_with_split _ _ E).
      rewrite scan_copy by (intros k Hk; now apply Hu).
      apply (contains_at _ _ 0). apply starts_with_app.
    + simpl in H. rewrite E in H. simpl in H.
      destruct (m (c :: t)) as [[n r]|] eqn:Hm.
      * destruct (Hs _ _ _ Hm) as [Hn Hne].
        rewrite (scan_hit _ _ _ _ Hm Hn Hne). apply contains_app_r.
        apply contains_position in H as [i Hi].
        assert (Hsplit : c :: t = (c :: List.firstn i t) ++ w
                                  ++ List.skipn (length w) (List.skipn i t)).
        { simpl. f_equal. rewrite <- (starts_with_split _ _ Hi).
          symmetry. apply List.firstn_skipn. }
        assert (Hle : n <= length (c :: List.firstn i t)).
        { apply (Hb _ (List.skipn (length w) (List.skipn i t)) n r);
            [now rewrite <- Hsplit|discriminate]. }
        apply IH; [rewrite List.length_skipn; simpl; lia|].
        rewrite Hsplit, List.skipn_app.
        apply contains_app_r.
        replace (n - length (c :: List.firstn i t)) with 0 by lia.
        apply (contains_at _ _ 0). apply starts_with_app.
      * rewrite (scan_miss _ _ _ Hm). apply contains_tail.
        apply IH; [simpl; lia|exact H].
Qed.

Lemma literal_untouched (old new w : Document) :
  apart old w = true -> untouched (literal old new) w.
Proof.
  intros H k z Hk. apply literal_miss. now apply apart_spec.
Qed.

Lemma literal_stops_before (old new w : Document) :
  apart w old = true -> stops_before (literal old new) w.
Proof.
  intros H a z n r Hm Ha. unfold literal in Hm.
  destruct (starts_with old (a ++ w ++ z)) eqn:E; [|discriminate].
  injection Hm as <- <-.
  destruct (le_lt_dec (length old) (length a)) as [Hl|Hl]; [exact Hl|].
  exfalso.
  pose proof (starts_with_split _ _ E) as Hsplit.
  assert (Hw : List.skipn (length a) (a ++ w ++ z) = w ++ z).
  { now rewrite List.skipn_app, List.skipn_all, Nat.sub_diag. }
  rewrite Hsplit, List.skipn_app in Hw.
  replace (length a - length old) with 0 in Hw by lia. simpl in Hw.
  pose proof (apart_spec _ _ H (length a)
                (List.skipn (length old) (a ++ w ++ z)) Hl) as Hno.
  change (drop 0 ?x) with x in Hw.
  now rewrite Hw, starts_with_app in Hno.
Qed.

Lemma str_replace_keeps (old new w s : Document) :
  old <> [] -> apart old w = true -> apart w old = true ->
  contains w s = true -> contains w (str_replace old new s) = true.
Proof.
  intros Hold H1 H2. apply scan_keeps.
  - now apply literal_sound.
  - now apply literal_untouched.
  - now apply literal_stops_before.
Qed.

Lemma token_nonempty (k : EnumTag) : token k <> [].
Proof. destruct k; discriminate. Qed.

(** The tokens and the text of the rewrite have nothing in common. *)
Lemma normalize_types_keeps_rewrite (s : Document) :
  contains REPL_PRIMARY s = true ->
  contains REPL_PRIMARY (normalize_types s) = true.
Proof.
  intros H. unfold normalize_types, replace_tag.
  repeat (apply str_replace_keeps;
          [apply token_nonempty|reflexivity|reflexivity|]).
  exact H.
Qed.

(** Step 2 puts the replacement text where the pattern stood. *)
Lemma rewrite_primary_inserts (s : Document) :
  contains CALL_PATTERN s = true ->
  contains REPL_PRIMARY (rewrite_primary s) = true.
Proof.
  unfold rewrite_primary, re_sub.
  pose proof (literal_sound CALL_PATTERN REPL_PRIMARY CALL_PATTERN_nonempty)
    as Hs.
  induction s as [|c t IH]; [discriminate|].
  intros H. destruct (starts_with CALL_PATTERN (c :: t)) eqn:E.
  - pose proof (literal_hit _ REPL_PRIMARY _ E) as Hm.
    destruct (Hs _ _ _ Hm) as [Hn Hne].
    rewrite (scan_hit _ _ _ _ Hm Hn Hne).
    apply (contains_at _ _ 0). apply starts_with_app.
  - rewrite scan_miss by now apply literal_miss.
    apply contains_tail. apply IH.
    rewrite contains_cons, E in H. exact H.
Qed.

(* ===================================================================== *)
(** ** The stripping pattern *)

Lemma eat_split (p s r : Document) : eat p s = Some r -> s = p ++ r.
Proof.
  revert s. induction p as [|a p IH]; intros [|b s] H; simpl in *;
    try discriminate; try congruence.
  destruct (N.eqb a b) eqn:E; [|discriminate].
  apply N.eqb_eq in E as ->. f_equal. now apply IH.
Qed.

Lemma eat_app (p r : Document) : eat p (p ++ r) = Some r.
Proof.
  induction p as [|a p IH]; simpl; [reflexivity|].
  now rewrite N.eqb_refl.
Qed.

Lemma eat_agree (p u z : Document) :
  agree p u = false -> eat p (u ++ z) = None.
Proof.
  revert u. induction p as [|a p IH]; intros [|b u] H; simpl in *;
    try discriminate.
  destruct (N.eqb a b); [now apply IH|reflexivity].
Qed.

Lemma eat_local (p a K : Document) :
  a <> [] ->
  (forall k, 1 <= k -> k < length p -> eat (List.skipn k p) K = None) ->
  eat p (a ++ K) = option_map (fun a' => a' ++ K) (eat p a).
Proof.
  revert a. induction p as [|b p IH]; intros a Ha HK.
  - now destruct a.
  - destruct a as [|c a]; [congruence|]. simpl.
    destruct (N.eqb b c); [|reflexivity].
    destruct a as [|c' a].
    + destruct p as [|b' p]; [reflexivity|].
      assert (H1 : eat (b' :: p) K = None)
        by (apply (HK 1 (le_n 1)); simpl; lia).
      simpl app. now rewrite H1.
    + apply IH; [discriminate|].
      intros k Hk Hl. apply (HK (S k)); simpl; lia.
Qed.

Lemma run_length_le (f : char -> bool) (s : Document) :
  run_length f s <= length s.
Proof.
  induction s as [|c t IH]; simpl; [lia|]. destruct (f c); lia.
Qed.

Lemma run_length_stop (f : char -> bool) (s : Document) :
  run_length f s < length s ->
  exists c t, List.skipn (run_length f s) s = c :: t /\ f c = false.
Proof.
  induction s as [|c t IH]; simpl; [lia|].
  destruct (f c) eqn:E; intros H.
  - apply IH. lia.
  - now exists c, t.
Qed.

Lemma run_length_app_in (f : char -> bool) (b K : Document) :
  run_length f b < length b -> run_length f (b ++ K) = run_length f b.
Proof.
  induction b as [|c t IH]; simpl; [lia|].
  destruct (f c); [|reflexivity]. intros H. f_equal. apply IH. lia.
Qed.

Lemma run_length_app_all (f : char -> bool) (b K : Document) :
  run_length f b = length b ->
  run_length f (b ++ K) = length b + run_length f K.
Proof.
  induction b as [|c t IH]; simpl; [reflexivity|].
  destruct (f c); [|discriminate]. intros H. f_equal. apply IH. lia.
Qed.

Lemma run_length_app_stop (f : char -> bool) (w : Document) (x : char)
    (K : Document) :
  f x = false -> run_length f (w ++ x :: K) = run_length f w.
Proof.
  intros Hx. induction w as [|c t IH]; simpl; [now rewrite Hx|].
  destruct (f c); [now rewrite IH|reflexivity].
Qed.

Lemma run_length_all (f : char -> bool) (w : Document) (x : char)
    (K : Document) :
  List.forallb f w = true -> f x = false ->
  run_length f (w ++ x :: K) = length w.
Proof.
  intros Hw Hx. induction w as [|c t IH]; simpl in *; [now rewrite Hx|].
  apply andb_true_iff in Hw as [-> Ht]. now rewrite IH.
Qed.

Lemma skipn_app_length {A} (u v : list A) :
  List.skipn (length u) (u ++ v) = v.
Proof. induction u; simpl; auto. Qed.

(** A match lies within the text and is never empty. *)
Lemma match_model_param_within (s : Document) (n : nat) :
  match_model_param s = Some n -> 0 < n /\ n <= length s.
Proof.
  unfold match_model_param.
  destruct (eat MODEL_KEY s) as [[|q r]|] eqn:E1; try discriminate.
  destruct (is_quote q); [|discriminate].
  destruct (eat GEMINI r) as [body|] eqn:E2; [|discriminate].
  pose proof (run_length_le lit_char body) as Hle. cbv zeta. unfold closing.
  destruct (run_length lit_char body) as [|j] eqn:Ej; [discriminate|].
  destruct (List.skipn (S j) body) as [|q' [|c ws]] eqn:E3; try discriminate.
  destruct (is_quote q' && N.eqb c COMMA); [|discriminate].
  intros [= <-].
  apply eat_split in E1, E2. subst s r.
  pose proof (run_length_le is_space ws) as Hws.
  assert (Hb : length (List.skipn (S j) body) = 2 + length ws)
    by now rewrite E3.
  rewrite List.length_skipn in Hb.
  rewrite length_app. simpl length. rewrite ?length_app. simpl length. lia.
Qed.

Lemma model_param_sound : sound model_param.
Proof.
  intros s n r. unfold model_param.
  destruct (match_model_param s) as [k|] eqn:E; [|discriminate].
  intros [= <- <-]. destruct (match_model_param_within _ _ E) as [H1 H2].
  split; [exact H1|]. intros ->. simpl in H2. lia.
Qed.

(** In front of such a text the pattern matches as if the text ended. *)
Lemma match_model_param_local (K a : Document) :
  blocks K -> a <> [] ->
  match_model_param (a ++ K) = match_model_param a.
Proof.
  intros [B1 B2 (x & K' & -> & Hx & Hsp) (q0 & c0 & K0 & Hskip & Hbad)] Ha.
  assert (Hxq : is_quote x = false /\ N.eqb x COMMA = false).
  { unfold lit_char in Hx. apply negb_true_iff, orb_false_iff in Hx. exact Hx. }
  destruct Hxq as [Hxq Hxc].
  unfold match_model_param. cbv zeta.
  rewrite (eat_local _ _ _ Ha B1).
  destruct (eat MODEL_KEY a) as [[|q r0]|]; cbn [option_map app];
    [|..|reflexivity].
  { now rewrite Hxq. }
  destruct (is_quote q); [|reflexivity].
  destruct r0 as [|g r0].
  { assert (H0 : eat GEMINI (x :: K') = None)
      by (apply (B2 0); simpl; lia).
    cbn [app]. now rewrite H0. }
  rewrite (eat_local GEMINI (g :: r0) (x :: K'));
    [|discriminate|intros k _ Hk; now apply B2].
  destruct (eat GEMINI (g :: r0)) as [b0|]; cbn [option_map];
    [|reflexivity].
  pose proof (run_length_le lit_char b0) as Hle.
  destruct (Nat.eq_dec (run_length lit_char b0) (length b0)) as [Hall|Hin].
  - rewrite (run_length_app_all _ _ _ Hall).
    rewrite List.skipn_app, (List.skipn_all2 b0) by lia.
    replace (length b0 + run_length lit_char (x :: K') - length b0)
      with (run_length lit_char (x :: K')) by lia.
    rewrite Hskip, Hall, List.skipn_all. unfold closing.
    destruct (length b0 + _); destruct (length b0); cbn [app];
      rewrite ?Hbad; reflexivity.
  - assert (Hlt : run_length lit_char b0 < length b0) by lia.
    rewrite (run_length_app_in _ _ _ Hlt).
    destruct (run_length_stop _ _ Hlt) as (q' & t1 & E & _).
    rewrite List.skipn_app, E.
    replace (run_length lit_char b0 - length b0) with 0 by lia.
    change (drop 0 ?l) with l. unfold closing.
    destruct (run_length lit_char b0) as [|j]; [reflexivity|].
    destruct t1 as [|c ws0]; cbn [app].
    + rewrite Hxc, andb_false_r. reflexivity.
    + now rewrite (run_length_app_stop _ _ _ _ Hsp).
Qed.

Lemma match_needs_key (s : Document) (n : nat) :
  match_model_param s = Some n -> starts_with MODEL_KEY s = true.
Proof.
  unfold match_model_param.
  destruct (eat MODEL_KEY s) as [r|] eqn:E; [|discriminate].
  intros _. rewrite (eat_split _ _ _ E). apply starts_with_app.
Qed.

Lemma model_param_miss (s : Document) :
  match_model_param s = None -> model_param s = None.
Proof. unfold model_param. now intros ->. Qed.

Lemma blocks_check_sound (known z : Document) :
  blocks_check known = true -> blocks (known ++ z).
Proof.
  unfold blocks_check. rewrite !andb_true_iff.
  intros [[[H1 H2] H3] H4]. rewrite List.forallb_forall in H1, H2.
  split.
  - intros k Hk Hl. apply eat_agree. apply negb_true_iff, H1.
    apply List.in_seq. lia.
  - intros k Hl. apply eat_agree. apply negb_true_iff, H2.
    apply List.in_seq. lia.
  - destruct known as [|x known]; [discriminate|].
    apply andb_true_iff in H3 as [Hx Hsp]. apply negb_true_iff in Hsp.
    now exists x, (known ++ z).
  - destruct (List.skipn (run_length lit_char known) known)
      as [|q [|c K']] eqn:E; try discriminate.
    assert (Hlt : run_length lit_char known < length known).
    { assert (Hl : length (List.skipn (run_length lit_char known) known)
                   = 2 + length K') by now rewrite E.
      rewrite List.length_skipn in Hl. lia. }
    exists q, c, (K' ++ z). rewrite (run_length_app_in _ _ _ Hlt).
    rewrite List.skipn_app, E.
    replace (run_length lit_char known - length known) with 0 by lia.
    split; [reflexivity|]. now apply negb_true_iff.
Qed.

Lemma model_param_stops_before (w : Document) :
  blocks_check w = true -> stops_before model_param w.
Proof.
  intros Hw a z n r Hm Ha. unfold model_param in Hm.
  rewrite (match_model_param_local _ _ (blocks_check_sound w z Hw) Ha) in Hm.
  destruct (match_model_param a) as [k|] eqn:E; [|discriminate].
  injection Hm as <- <-. now apply match_model_param_within in E.
Qed.

Lemma model_param_untouched (k0 : nat) (w : Document) :
  key_only_at k0 w = true ->
  (forall z, match_model_param (List.skipn k0 w ++ z) = None) ->
  untouched model_param w.
Proof.
  unfold key_only_at. rewrite List.forallb_forall. intros H H0 k z Hk.
  apply model_param_miss.
  assert (Hin : List.In k (List.seq 0 (length w))) by (apply List.in_seq; lia).
  apply H, orb_true_iff in Hin as [Hin|Hin].
  - destruct (match_model_param (List.skipn k w ++ z)) as [n|] eqn:E;
      [|reflexivity].
    apply match_needs_key, starts_with_agree in E.
    apply negb_true_iff in Hin. congruence.
  - apply Nat.eqb_eq in Hin as ->. apply H0.
Qed.

(** The handle statement inserted by the rewrite: its [model: ] argument is
    closed by a quote that no comma follows. *)
Lemma handle_argument_unmatched (z : Document) :
  match_model_param (List.skipn 38 HANDLE ++ z) = None.
Proof. reflexivity. Qed.

Lemma model_param_untouched_HANDLE : untouched model_param HANDLE.
Proof.
  apply (model_param_untouched 38); [reflexivity|].
  exact handle_argument_unmatched.
Qed.

Lemma model_param_untouched_REPL_PRIMARY : untouched model_param REPL_PRIMARY.
Proof.
  apply (model_param_untouched 38); [reflexivity|].
  intros z. reflexivity.
Qed.

Lemma strip_keeps_HANDLE (s : Document) :
  contains HANDLE s = true -> contains HANDLE (strip_model_param s) = true.
Proof.
  apply scan_keeps.
  - exact model_param_sound.
  - exact model_param_untouched_HANDLE.
  - now apply model_param_stops_before.
Qed.

Lemma strip_keeps_REPL_PRIMARY (s : Document) :
  contains REPL_PRIMARY s = true ->
  contains REPL_PRIMARY (strip_model_param s) = true.
Proof.
  apply scan_keeps.
  - exact model_param_sound.
  - exact model_param_untouched_REPL_PRIMARY.
  - now apply model_param_stops_before.
Qed.

(** Every document with the call pattern comes out with the rewritten call. *)
Lemma transform_inserts_rewrite (s : Document) :
  contains CALL_PATTERN s = true ->
  contains REPL_PRIMARY (transform s) = true.
Proof.
  intros H. unfold transform.
  apply strip_keeps_REPL_PRIMARY, normalize_types_keeps_rewrite.
  destruct (variant_noop s) as [-> _].
  now apply rewrite_primary_inserts.
Qed.

(* ===================================================================== *)
(** ** Stripping a model argument *)

Lemma is_quote_not_lit (q : char) : is_quote q = true -> lit_char q = false.
Proof. unfold lit_char. now intros ->. Qed.

Lemma match_fragment (q : char) (lit : Document) (q' c : char)
    (rest : Document) :
  is_quote q = true -> literal_body lit -> is_quote q' = true ->
  match_model_param (fragment q lit q' ++ c :: rest)
  = closing (length lit) (q' :: c :: rest).
Proof.
  intros Hq [Hne Hlit] Hq'. unfold fragment, match_model_param.
  rewrite <- app_assoc, eat_app. cbn [app]. rewrite Hq.
  rewrite <- !app_assoc, eat_app. cbv zeta. cbn [app].
  rewrite (run_length_all _ _ _ _ Hlit (is_quote_not_lit _ Hq')).
  now rewrite skipn_app_length.
Qed.

Lemma match_fragment_end (q : char) (lit : Document) (q' : char) :
  is_quote q = true -> literal_body lit -> is_quote q' = true ->
  match_model_param (fragment q lit q') = None.
Proof.
  intros Hq [Hne Hlit] Hq'. unfold fragment, match_model_param.
  rewrite eat_app. rewrite Hq, eat_app. cbv zeta.
  rewrite (run_length_all _ _ _ _ Hlit (is_quote_not_lit _ Hq')).
  rewrite skipn_app_length. unfold closing. now destruct (length lit).
Qed.

Lemma closing_comma (n : nat) (q' : char) (rest : Document) :
  0 < n -> is_quote q' = true ->
  closing n (q' :: COMMA :: rest)
  = Some (length MODEL_KEY + 1 + length GEMINI + n + 2
          + run_length is_space rest).
Proof.
  intros Hn Hq'. unfold closing. destruct n; [lia|]. now rewrite Hq'.
Qed.

Lemma closing_no_comma (n : nat) (q' c : char) (rest : Document) :
  c <> COMMA -> closing n (q' :: c :: rest) = None.
Proof.
  intros Hc. unfold closing. destruct n; [reflexivity|].
  apply N.eqb_neq in Hc. now rewrite Hc, andb_false_r.
Qed.

Lemma run_length_spaces (ws v : Document) :
  List.forallb is_space ws = true -> no_leading_space v ->
  run_length is_space (ws ++ v) = length ws.
Proof.
  intros Hws Hv. induction ws as [|c ws IH]; simpl in *.
  - destruct v as [|x v]; simpl in *; [reflexivity|now rewrite Hv].
  - apply andb_true_iff in Hws as [-> Hws]. now rewrite IH.
Qed.

(** In front of a text that blocks, the scan of [u] is not disturbed. *)
Lemma scan_app_local (m : matcher) (u rest : Document) :
  sound m ->
  (forall s n r, m s = Some (n, r) -> n <= length s) ->
  (forall a, a <> [] -> m (a ++ rest) = m a) ->
  scan m (u ++ rest) = scan m u ++ scan m rest.
Proof.
  intros Hs Hw Hl. induction u as [u IH] using list_length_ind.
  destruct u as [|c t]; [reflexivity|].
  assert (Hm : m ((c :: t) ++ rest) = m (c :: t)) by now apply Hl.
  destruct (m (c :: t)) as [[n r]|] eqn:E.
  - destruct (Hs _ _ _ E) as [Hn _]. pose proof (Hw _ _ _ E) as Hle.
    rewrite (scan_hit _ _ _ _ Hm Hn) by discriminate.
    rewrite (scan_hit _ _ _ _ E Hn) by discriminate.
    rewrite List.skipn_app.
    replace (n - length (c :: t)) with 0 by lia.
    change (drop 0 rest) with rest.
    rewrite IH by (rewrite List.length_skipn; simpl; lia).
    now rewrite app_assoc.
  - cbn [app] in *. rewrite (scan_miss _ _ _ Hm), (scan_miss _ _ _ E).
    rewrite IH by (simpl; lia). reflexivity.
Qed.

Lemma model_param_within (s : Document) (n : nat) (r : Document) :
  model_param s = Some (n, r) -> n <= length s.
Proof.
  unfold model_param.
  destruct (match_model_param s) as [k|] eqn:E; [|discriminate].
  intros [= <- <-]. now apply match_model_param_within in E.
Qed.

Lemma fragment_blocks (q : char) (lit : Document) (q' : char) (z : Document) :
  is_quote q = true -> literal_body lit -> blocks (fragment q lit q' ++ z).
Proof.
  intros Hq [Hne _]. destruct lit as [|l0 lit]; [congruence|].
  assert (E : fragment q (l0 :: lit) q' ++ z
              = (MODEL_KEY ++ [q; 103%N])
                ++ List.skipn 1 GEMINI ++ (l0 :: lit) ++ q' :: z).
  { unfold fragment.
    change GEMINI with (103%N :: List.skipn 1 GEMINI) at 1.
    repeat (rewrite <- app_assoc; cbn [app]). reflexivity. }
  rewrite E. apply blocks_check_sound.
  unfold is_quote in Hq. apply orb_true_iff in Hq as [Hq|Hq];
    apply N.eqb_eq in Hq; subst q; reflexivity.
Qed.

(** The scan deletes a comma-terminated fragment, with the white space
    after the comma, wherever it stands. *)
Lemma strip_fragment (u : Document) (q : char) (lit : Document) (q' : char)
    (ws v : Document) :
  is_quote q = true -> literal_body lit -> is_quote q' = true ->
  List.forallb is_space ws = true -> no_leading_space v ->
  strip_model_param (u ++ fragment q lit q' ++ COMMA :: ws ++ v)
  = strip_model_param u ++ strip_model_param v.
Proof.
  intros Hq Hlit Hq' Hws Hv. unfold strip_model_param, re_sub.
  rewrite scan_app_local.
  - f_equal.
    assert (Hm : model_param (fragment q lit q' ++ COMMA :: ws ++ v)
                 = Some (length (fragment q lit q') + 1 + length ws, [])).
    { unfold model_param. rewrite (match_fragment _ _ _ _ _ Hq Hlit Hq').
      destruct Hlit as [Hne Hl].
      rewrite closing_comma, (run_length_spaces _ _ Hws Hv);
        [|destruct lit; [congruence|simpl; lia]|exact Hq'].
      unfold fragment. do 3 f_equal.
      rewrite !length_app. simpl length. rewrite !length_app. simpl. lia. }
    rewrite (scan_hit _ _ _ _ Hm) by (try lia; now destruct MODEL_KEY).
    cbn [app]. f_equal.
    replace (length (fragment q lit q') + 1 + length ws)
      with (length (fragment q lit q' ++ COMMA :: ws))
      by (rewrite length_app; simpl; lia).
    change (fragment q lit q' ++ COMMA :: ws ++ v)
      with (fragment q lit q' ++ (COMMA :: ws) ++ v).
    rewrite app_assoc. apply skipn_app_length.
  - exact model_param_sound.
  - exact model_param_within.
  - intros a Ha. unfold model_param.
    now rewrite (match_model_param_local _ _ (fragment_blocks _ _ _ _ Hq Hlit) Ha).
Qed.

(* ===================================================================== *)
(** ** Step 4 as one scan for all tokens at once *)

Lemma scan_ext (m m' : matcher) (s : Document) :
  (forall y, m y = m' y) -> scan m s = scan m' s.
Proof.
  intros H. unfold scan. generalize 0.
  induction s as [|c t IH]; intros k; [reflexivity|].
  simpl. destruct k; [|apply IH].
  rewrite <- H. destruct (m (c :: t)) as [[n r]|]; now rewrite IH.
Qed.

Lemma any_token_hit (ks : list EnumTag) (s : Document) (n : nat)
    (r : Document) :
  any_token ks s = Some (n, r) ->
  exists j, List.In j ks /\ starts_with (token j) s = true
            /\ n = length (token j) /\ r = quoted j.
Proof.
  induction ks as [|k ks IH]; simpl; [discriminate|].
  destruct (starts_with (token k) s) eqn:E.
  - intros [= <- <-]. exists k. auto.
  - intros H. destruct (IH H) as (j & Hj & H'). exists j. auto.
Qed.

Lemma any_token_miss (ks : list EnumTag) (s : Document) :
  any_token ks s = None <->
  forall j, List.In j ks -> starts_with (token j) s = false.
Proof.
  induction ks as [|k ks IH]; simpl.
  - split; [intros _ j []|reflexivity].
  - destruct (starts_with (token k) s) eqn:E.
    + split; [discriminate|]. intros H. rewrite (H k) in E; [discriminate|].
      now left.
    + rewrite IH. split.
      * intros H j [<-|Hj]; [exact E|now apply H].
      * intros H j Hj. apply H. now right.
Qed.

Lemma any_token_snoc (ks : list EnumTag) (k : EnumTag) (s : Document) :
  any_token (ks ++ [k]) s =
  match any_token ks s with
  | Some x => Some x
  | None => literal (token k) (quoted k) s
  end.
Proof.
  induction ks as [|j ks IH]; simpl.
  - unfold literal. now destruct (starts_with (token k) s).
  - now destruct (starts_with (token j) s).
Qed.

Lemma any_token_sound (ks : list EnumTag) : sound (any_token ks).
Proof.
  intros s n r H. apply any_token_hit in H as (j & _ & Hs & -> & _).
  split.
  - destruct j; simpl; lia.
  - intros ->. destruct j; discriminate.
Qed.

(** The quoted strings begin with a quote, which no token contains, and no
    token can begin inside one. *)
Lemma any_token_fresh_head (ks : list EnumTag) (k : EnumTag) :
  fresh_head (any_token ks) (token k).
Proof.
  intros s n r H. apply any_token_hit in H as (j & _ & _ & _ & ->).
  apply head_foreign_spec. destruct j, k; reflexivity.
Qed.

Lemma token_apart_quoted (k j : EnumTag) : apart (token k) (quoted j) = true.
Proof. destruct k, j; reflexivity. Qed.

Lemma any_token_clear_of (ks : list EnumTag) (k : EnumTag) :
  clear_of (any_token ks) (token k).
Proof.
  intros s n r H. apply any_token_hit in H as (j & _ & _ & _ & ->).
  apply apart_spec, token_apart_quoted.
Qed.

Lemma inner_free_skipn (ks : list EnumTag) (k : EnumTag) (s : Document)
    (n : nat) :
  inner_free ks k s -> inner_free ks k (List.skipn n s).
Proof.
  intros H p i j Hj Hi Hl. rewrite !List.skipn_skipn.
  replace (p + i + n) with ((p + n) + i) by lia. now apply H.
Qed.

Lemma skipn_app_le {A} (i : nat) (u v : list A) :
  i <= length u -> List.skipn i (u ++ v) = List.skipn i u ++ v.
Proof.
  intros H. rewrite List.skipn_app.
  replace (i - length u) with 0 by lia. reflexivity.
Qed.

(** Replacing the token [k] after the tokens of [ks] is one scan for all of
    them, as long as no earlier token begins inside an occurrence of [k]. *)
Lemma replace_after_any_token (ks : list EnumTag) (k : EnumTag)
    (s : Document) :
  inner_free ks k s ->
  replace_tag k (scan (any_token ks) s) = scan (any_token (ks ++ [k])) s.
Proof.
  unfold replace_tag, str_replace.
  pose proof (literal_sound (token k) (quoted k) (token_nonempty k)) as HsL.
  pose proof (any_token_sound ks) as HsP.
  pose proof (any_token_sound (ks ++ [k])) as HsP'.
  induction s as [s IH] using list_length_ind. intros Hfree.
  destruct s as [|c t]; [reflexivity|].
  pose proof (any_token_snoc ks k (c :: t)) as Hsnoc.
  destruct (any_token ks (c :: t)) as [[n r]|] eqn:Hm.
  - (* an earlier token stands here *)
    destruct (HsP _ _ _ Hm) as [Hn Hne].
    rewrite (scan_hit _ _ _ _ Hm Hn Hne), (scan_hit _ _ _ _ Hsnoc Hn Hne).
    apply any_token_hit in Hm as (j & _ & _ & _ & ->).
    rewrite scan_copy.
    + f_equal. apply IH; [rewrite List.length_skipn; simpl; lia|].
      now apply inner_free_skipn.
    + intros i Hi. apply literal_miss, apart_spec;
        [apply token_apart_quoted|exact Hi].
  - destruct (starts_with (token k) (c :: t)) eqn:Ek.
    + (* the token [k] stands here *)
      pose proof (starts_with_split _ _ Ek) as Hsplit.
      set (s' := List.skipn (length (token k)) (c :: t)) in *.
      assert (Hlen : length s' < length (c :: t)).
      { unfold s'. rewrite List.length_skipn.
        pose proof (token_nonempty k). destruct (token k); simpl in *;
          [congruence|lia]. }
      assert (Hcopy : scan (any_token ks) (c :: t)
                      = token k ++ scan (any_token ks) s').
      { rewrite Hsplit at 1. apply scan_copy. intros i Hi.
        rewrite <- skipn_app_le, <- Hsplit by lia.
        destruct i as [|i]; [exact Hm|].
        apply any_token_miss. intros j Hj.
        apply (Hfree 0 (S i) j Hj); [lia|exact Hi|exact Ek]. }
      rewrite Hcopy.
      rewrite (scan_hit _ _ _ _
                 (literal_hit _ (quoted k) _ (starts_with_app (token k) _)));
        [|destruct k; simpl; lia|pose proof (token_nonempty k);
                                 destruct (token k); [congruence|discriminate]].
      rewrite skipn_app_length.
      rewrite (literal_hit _ (quoted k) _ Ek) in Hsnoc.
      rewrite (scan_hit _ _ _ _ Hsnoc); [|destruct k; simpl; lia|discriminate].
      f_equal. apply IH; [exact Hlen|]. now apply inner_free_skipn.
    + (* no token stands here *)
      rewrite (literal_miss _ (quoted k) _ Ek) in Hsnoc.
      rewrite (scan_miss _ _ _ Hsnoc), (scan_miss _ _ _ Hm).
      rewrite scan_miss.
      * f_equal. apply IH; [simpl; lia|].
        exact (inner_free_skipn ks k (c :: t) 1 Hfree).
      * apply literal_miss.
        destruct (starts_with (token k) (c :: scan (any_token ks) t)) eqn:E;
          [|reflexivity].
        rewrite <- (scan_miss _ _ _ Hm) in E.
        apply (scan_starts_with _ _ _ HsP (any_token_fresh_head ks k)) in E.
        congruence.
Qed.

Lemma overlap_inside_token (k j : EnumTag) (i : nat) :
  0 < i -> i < length (token k) ->
  agree (token j) (List.skipn i (token k)) = true ->
  k = OBJECT /\ i = 10.
Proof.
  intros H0 Hl.
  destruct k, j; simpl in Hl;
    do 13 (destruct i as [|i]; [first [lia | discriminate | now split]|]);
    lia.
Qed.

Lemma starts_with_app_both (a b y : Document) :
  starts_with (a ++ b) (a ++ y) = starts_with b y.
Proof.
  induction a as [|x a IH]; simpl; [reflexivity|].
  now rewrite N.eqb_refl.
Qed.

Lemma overlap_is_objec (k j : EnumTag) (i : nat) (y : Document) :
  0 < i -> i < length (token k) ->
  starts_with (token k) y = true ->
  starts_with (token j) (List.skipn i y) = true ->
  k = OBJECT /\ starts_with (TYPE_OBJEC ++ token j) y = true.
Proof.
  intros H0 Hl Hk Hj.
  rewrite (starts_with_split _ _ Hk), skipn_app_le in Hj by lia.
  pose proof (starts_with_agree _ _ _ Hj) as Ha.
  destruct (overlap_inside_token k j i H0 Hl Ha) as [-> ->].
  split; [reflexivity|].
  rewrite (starts_with_split _ _ Hk).
  change (token OBJECT) with (TYPE_OBJEC ++ List.skipn 10 (token OBJECT)).
  rewrite <- app_assoc, starts_with_app_both. exact Hj.
Qed.

Lemma inner_free_static (ks : list EnumTag) (k : EnumTag) (s : Document) :
  k <> OBJECT -> inner_free ks k s.
Proof.
  intros Hk p i j _ H0 Hl Hs.
  destruct (starts_with (token j) (List.skipn (p + i) s)) eqn:E;
    [|reflexivity].
  rewrite Nat.add_comm, <- List.skipn_skipn in E.
  now destruct (overlap_is_objec k j i _ H0 Hl Hs E).
Qed.

Lemma inner_free_no_overlap (ks : list EnumTag) (k : EnumTag) (s : Document) :
  no_overlap s -> inner_free ks k s.
Proof.
  intros Hno p i j _ H0 Hl Hs.
  destruct (starts_with (token j) (List.skipn (p + i) s)) eqn:E;
    [|reflexivity].
  rewrite Nat.add_comm, <- List.skipn_skipn in E.
  destruct (overlap_is_objec k j i _ H0 Hl Hs E) as [_ H].
  apply contains_at in H. now rewrite Hno in H.
Qed.

Lemma inner_free_nil (k : EnumTag) (s : Document) : inner_free [] k s.
Proof. intros p i j []. Qed.

Lemma any_token_nil_scan (s : Document) : scan (any_token []) s = s.
Proof. apply scan_never. intros i. reflexivity. Qed.

Lemma replace_in_order_snoc (ks : list EnumTag) (k : EnumTag) (s : Document) :
  replace_in_order (ks ++ [k]) s = replace_tag k (replace_in_order ks s).
Proof. unfold replace_in_order. now rewrite List.fold_left_app. Qed.

(** In any order, on a document without overlapping occurrences, the
    substitutions amount to the one scan. *)
Lemma replace_in_order_scan (ks : list EnumTag) (s : Document) :
  no_overlap s -> replace_in_order ks s = scan (any_token ks) s.
Proof.
  intros Hno. induction ks as [|k ks IH] using List.rev_ind.
  - symmetry. apply any_token_nil_scan.
  - rewrite replace_in_order_snoc, IH.
    apply replace_after_any_token. now apply inner_free_no_overlap.
Qed.

(** In the order of the script the same holds on every document:
    [Type.OBJECT] goes first. *)
Lemma normalize_types_scan (s : Document) :
  normalize_types s = scan (any_token all_tags) s.
Proof.
  unfold normalize_types.
  rewrite <- (any_token_nil_scan s) at 1.
  rewrite (replace_after_any_token [] OBJECT s (inner_free_nil _ _)).
  cbn [app].
  rewrite (replace_after_any_token [OBJECT] STRING s)
    by (apply inner_free_static; discriminate).
  cbn [app].
  rewrite (replace_after_any_token [OBJECT; STRING] ARRAY s)
    by (apply inner_free_static; discriminate).
  cbn [app].
  rewrite (replace_after_any_token [OBJECT; STRING; ARRAY] INTEGER s)
    by (apply inner_free_static; discriminate).
  cbn [app].
  rewrite (replace_after_any_token [OBJECT; STRING; ARRAY; INTEGER] BOOLEAN s)
    by (apply inner_free_static; discriminate).
  reflexivity.
Qed.

(** At most one token starts at a given place. *)
Lemma token_unique (j k : EnumTag) (y : Document) :
  starts_with (token j) y = true -> starts_with (token k) y = true -> j = k.
Proof.
  intros Hj Hk. rewrite (starts_with_split _ _ Hj) in Hk.
  apply starts_with_agree in Hk. destruct j, k; try reflexivity; discriminate.
Qed.

Lemma any_token_at (ks : list EnumTag) (k : EnumTag) (y : Document) :
  List.In k ks -> starts_with (token k) y = true ->
  any_token ks y = Some (length (token k), quoted k).
Proof.
  intros Hin Hk. destruct (any_token ks y) as [[n r]|] eqn:E.
  - apply any_token_hit in E as (j & _ & Hj & -> & ->).
    now rewrite (token_unique _ _ _ Hj Hk).
  - rewrite any_token_miss in E. now rewrite (E k Hin) in Hk.
Qed.

Lemma any_token_permutation (ks ks' : list EnumTag) (y : Document) :
  Permutation ks ks' -> any_token ks y = any_token ks' y.
Proof.
  intros HP. destruct (any_token ks y) as [[n r]|] eqn:E.
  - apply any_token_hit in E as (j & Hj & Hs & -> & ->).
    symmetry. apply any_token_at; [|exact Hs].
    now apply (Permutation_in _ HP).
  - symmetry. rewrite any_token_miss in *. intros j Hj. apply E.
    now apply (Permutation_in _ (Permutation_sym HP)).
Qed.

Lemma no_overlap_skipn (s : Document) (n : nat) :
  no_overlap s -> no_overlap (List.skipn n s).
Proof. intros H j. now apply absent_skipn. Qed.

(** A replacement never creates an occurrence of a token. *)
Lemma replace_tag_creates_none (j k : EnumTag) (s : Document) :
  contains (token k) s = false -> contains (token k) (replace_tag j s) = false.
Proof.
  apply str_replace_creates_none.
  - apply token_nonempty.
  - destruct j, k; reflexivity.
  - apply token_apart_quoted.
Qed.

(** Without overlaps, a replacement keeps the occurrences of the others. *)
Lemma replace_tag_keeps_other (j k : EnumTag) (s : Document) :
  j <> k -> no_overlap s ->
  contains (token k) s = true -> contains (token k) (replace_tag j s) = true.
Proof.
  intros Hjk. unfold replace_tag, str_replace.
  pose proof (literal_sound (token j) (quoted j) (token_nonempty j)) as Hs.
  induction s as [s IH] using list_length_ind. intros Hno H.
  destruct s as [|c t]; [now destruct k|].
  destruct (starts_with (token k) (c :: t)) eqn:Ek.
  - rewrite (starts_with_split _ _ Ek) at 1. rewrite scan_copy.
    + apply (contains_at _ _ 0). apply starts_with_app.
    + intros i Hi. rewrite <- skipn_app_le, <- (starts_with_split _ _ Ek) by lia.
      apply literal_miss. destruct i as [|i].
      * change (drop 0 (c :: t)) with (c :: t).
        destruct (starts_with (token j) (c :: t)) eqn:Ej; [|reflexivity].
        now destruct (Hjk (token_unique _ _ _ Ej Ek)).
      * apply (inner_free_no_overlap [j] k _ Hno 0 (S i) j);
          [now left|lia|exact Hi|exact Ek].
  - rewrite contains_cons, Ek in H. simpl in H.
    destruct (literal (token j) (quoted j) (c :: t)) as [[n r]|] eqn:Hm.
    + destruct (Hs _ _ _ Hm) as [Hn Hne].
      rewrite (scan_hit _ _ _ _ Hm Hn Hne). apply contains_app_r.
      unfold literal in Hm.
      destruct (starts_with (token j) (c :: t)) eqn:Ej; [|discriminate].
      injection Hm as <- <-.
      apply contains_position in H as [p Hp].
      destruct (le_lt_dec (length (token j)) (S p)) as [Hle|Hlt].
      * apply IH; [rewrite List.length_skipn; simpl; lia
                  |now apply no_overlap_skipn|].
        apply (contains_at _ _ (S p - length (token j))).
        rewrite List.skipn_skipn.
        replace (S p - length (token j) + length (token j)) with (S p) by lia.
        exact Hp.
      * pose proof (inner_free_no_overlap [k] j _ Hno 0 (S p) k
                      (or_introl eq_refl) (Nat.lt_0_succ p) Hlt Ej) as Hx.
        simpl in Hx. congruence.
    + rewrite (scan_miss _ _ _ Hm). apply contains_tail.
      apply IH; [simpl; lia| |exact H].
      exact (no_overlap_skipn _ 1 Hno).
Qed.

Lemma in_all_tags (k : EnumTag) : List.In k all_tags.
Proof. destruct k; simpl; tauto. Qed.

Lemma scan_tokens_step (g : Document) (k : EnumTag) (rest : Document) :
  token_free g -> no_overlap (g ++ token k ++ rest) ->
  scan (any_token all_tags) (g ++ token k ++ rest)
  = g ++ quoted k ++ scan (any_token all_tags) rest.
Proof.
  intros Hg Hno. rewrite scan_copy.
  - f_equal.
    rewrite (scan_hit _ _ _ _
               (any_token_at all_tags k _ (in_all_tags k)
                  (starts_with_app (token k) rest)));
      [|destruct k; simpl; lia|destruct k; discriminate].
    now rewrite skipn_app_length.
  - intros i Hi. apply any_token_miss. intros j _.
    destruct (starts_with (token j) (List.skipn i g ++ token k ++ rest))
      eqn:E; [exfalso|reflexivity].
    assert (Hpos : 0 < length (List.skipn i g))
      by (rewrite List.length_skipn; lia).
    destruct (le_lt_dec (length (token j)) (length (List.skipn i g)))
      as [Hle|Hlt].
    + rewrite (starts_with_app_l _ _ _ [] Hle), app_nil_r in E.
      apply contains_at in E. now rewrite Hg in E.
    + destruct (overlap_is_objec j k (length (List.skipn i g)) _ Hpos Hlt E)
        as [_ H].
      * rewrite skipn_app_length. apply starts_with_app.
      * rewrite <- skipn_app_le in H by lia.
        apply contains_at in H. now rewrite Hno in H.
Qed.

Lemma scan_tokens_assemble (g0 : Document) (parts : list (EnumTag * Document)) :
  token_free g0 ->
  List.Forall (fun part => token_free (snd part)) parts ->
  no_overlap (assemble token g0 parts) ->
  scan (any_token all_tags) (assemble token g0 parts)
  = assemble quoted g0 parts.
Proof.
  revert g0. induction parts as [|[k g] parts IH]; intros g0 Hg0 Hparts Hno.
  - cbn [assemble]. apply scan_never. intros i. apply any_token_miss.
    intros j _. now apply absent_at.
  - cbn [assemble] in *. rewrite (scan_tokens_step _ _ _ Hg0 Hno).
    apply List.Forall_cons_iff in Hparts as [Hg Hparts].
    rewrite IH; [reflexivity|exact Hg|exact Hparts|].
    intros j.
    replace (assemble token g parts)
      with (List.skipn (length (g0 ++ token k))
              ((g0 ++ token k) ++ assemble token g parts))
      by apply skipn_app_length.
    apply absent_skipn. rewrite <- app_assoc. apply Hno.
Qed.

(* ===================================================================== *)
(** ** Step 4: the five substitutions *)

(** C5, as stated, fails where two occurrences overlap: [Type.STRING] occurs
    in [Type.OBJECType.STRING], the step rewrites the [Type.OBJECT] in front
    of it and the output holds no quoted [string]. *)
Lemma normalize_types_skips_overlapped :
  contains (token STRING) OVERLAPPING = true
  /\ normalize_types OVERLAPPING = quoted OBJECT ++ str "ype.STRING"
  /\ contains (quoted STRING) (normalize_types OVERLAPPING) = false.
Proof. repeat split; reflexivity. Qed.

(** C5, amended: in a document where no token begins on the final [T] of a
    [Type.OBJECT], written as stretches of token-free text between token
    occurrences, the step puts the quoted string in the place of every
    token and leaves every stretch as it was. *)
Theorem normalize_types_replaces_every_token (g0 : Document)
    (parts : list (EnumTag * Document)) :
  token_free g0 ->
  List.Forall (fun part => token_free (snd part)) parts ->
  no_overlap (assemble token g0 parts) ->
  normalize_types (assemble token g0 parts) = assemble quoted g0 parts.
Proof.
  intros Hg0 Hparts Hno. rewrite normalize_types_scan.
  now apply scan_tokens_assemble.
Qed.

Lemma normalize_types_replaces_every_token_witness :
  normalize_types (assemble token (str "{ type: ") schema_sample)
  = assemble quoted (str "{ type: ") schema_sample.
Proof.
  apply normalize_types_replaces_every_token.
  - intros []; reflexivity.
  - repeat constructor; intros []; reflexivity.
  - intros []; reflexivity.
Defined.

(** C8, as stated, fails on the same document: the two orders of
    [Type.OBJECT] and [Type.STRING] give different texts, and replacing
    [Type.OBJECT] destroys the occurrence of [Type.STRING]. *)
Lemma replacements_do_not_commute :
  replace_tag STRING (replace_tag OBJECT OVERLAPPING)
  <> replace_tag OBJECT (replace_tag STRING OVERLAPPING)
  /\ contains (token STRING) OVERLAPPING = true
  /\ contains (token STRING) (replace_tag OBJECT OVERLAPPING) = false.
Proof. split; [discriminate|split; reflexivity]. Qed.

(** C8, amended: a replacement never creates an occurrence of a token; and
    on a document where no token begins on the final [T] of a
    [Type.OBJECT], the five substitutions give the text of the script's
    order in whatever order they are applied, and none destroys an
    occurrence of another token. *)
Theorem replacements_commute_without_overlap :
  (forall j k s, contains (token k) s = false ->
     contains (token k) (replace_tag j s) = false)
  /\ forall s, no_overlap s ->
       (forall order, Permutation order all_tags ->
          replace_in_order order s = normalize_types s)
       /\ (forall j k, j <> k -> contains (token k) s = true ->
             contains (token k) (replace_tag j s) = true).
Proof.
  split; [exact replace_tag_creates_none|].
  intros s Hno. split.
  - intros order HP. rewrite normalize_types_scan.
    rewrite (replace_in_order_scan order s Hno).
    apply scan_ext. intros y. now apply any_token_permutation.
  - intros j k Hjk. now apply replace_tag_keeps_other.
Qed.

Lemma replacements_commute_without_overlap_witness :
  replace_in_order [BOOLEAN; STRING; INTEGER; OBJECT; ARRAY] tags_sample
  = normalize_types tags_sample.
Proof.
  refine (proj1 (proj2 replacements_commute_without_overlap tags_sample _) _ _).
  - intros []; reflexivity.
  - apply NoDup_Permutation.
    + repeat (apply NoDup_cons_2 || apply NoDup_nil_2);
        rewrite ?list_elem_of_In; simpl; intuition discriminate.
    + repeat (apply NoDup_cons_2 || apply NoDup_nil_2);
        rewrite ?list_elem_of_In; simpl; intuition discriminate.
    + intros []; rewrite !list_elem_of_In; simpl; intuition discriminate.
Defined.

(* ===================================================================== *)
(** ** Step 5 and the rewritten call *)

Lemma starts_with_weaken (p u z : Document) :
  starts_with p u = true -> starts_with p (u ++ z) = true.
Proof.
  intros H. rewrite (starts_with_split _ _ H), <- app_assoc.
  apply starts_with_app.
Qed.

Lemma contains_app_l (p u z : Document) :
  contains p u = true -> contains p (u ++ z) = true.
Proof.
  intros H. apply contains_position in H as [i Hi].
  destruct (le_lt_dec i (length u)) as [Hle|Hlt].
  - apply (contains_at _ _ i). rewrite skipn_app_le by exact Hle.
    now apply starts_with_weaken.
  - rewrite List.skipn_all2 in Hi by lia.
    destruct p; [apply contains_nil_l|discriminate].
Qed.

Lemma contains_trans (a b s : Document) :
  contains a b = true -> contains b s = true -> contains a s = true.
Proof.
  intros Hab Hbs. apply contains_position in Hbs as [i Hi].
  apply (contains_skipn a s i). rewrite (starts_with_split _ _ Hi).
  now apply contains_app_l.
Qed.

(** C2, as stated, fails on the comma: a model argument that no comma
    follows is not removed. *)
Lemma strip_needs_comma :
  contains GEMINI_PRO_ARG ONLY_ARG = true
  /\ strip_model_param ONLY_ARG = ONLY_ARG.
Proof. split; reflexivity. Qed.

(** C2, amended: the step deletes a fragment [model: <q>gemini-<lit><q'>,]
    with the white space after the comma, wherever it stands, and strips
    what precedes and what follows on their own; the pattern does not match
    a fragment whose closing quote is followed by anything but a comma, or
    by nothing; and from a call with such a fragment, the one with
    [gemini-2.0-flash-exp] say, among arguments that hold no match, only
    the fragment and the white space after its comma go. *)
Theorem strip_model_param_removes_fragment (q : char) (lit : Document)
    (q' : char) :
  is_quote q = true -> literal_body lit -> is_quote q' = true ->
  (forall u ws v,
     List.forallb is_space ws = true -> no_leading_space v ->
     strip_model_param (u ++ fragment q lit q' ++ COMMA :: ws ++ v)
     = strip_model_param u ++ strip_model_param v)
  /\ (forall c rest, c <> COMMA ->
        model_param (fragment q lit q' ++ c :: rest) = None)
  /\ model_param (fragment q lit q') = None
  /\ (forall u ws v,
        finds model_param u = false -> finds model_param v = false ->
        List.forallb is_space ws = true -> no_leading_space v ->
        strip_model_param (u ++ fragment q lit q' ++ COMMA :: ws ++ v)
        = u ++ v).
Proof.
  intros Hq Hlit Hq'. split; [|split; [|split]].
  - intros u ws v. now apply strip_fragment.
  - intros c rest Hc. apply model_param_miss.
    rewrite (match_fragment _ _ _ _ _ Hq Hlit Hq').
    now apply closing_no_comma.
  - apply model_param_miss. now apply match_fragment_end.
  - intros u ws v Hu Hv Hws Hsp.
    rewrite strip_fragment by assumption.
    now rewrite !strip_model_param_absent.
Qed.

Lemma strip_model_param_removes_fragment_witness :
  strip_model_param
    (call_head ++ INSERTED_ARG ++ COMMA :: (NL :: spaces 8) ++ call_tail)
  = call_head ++ call_tail.
Proof.
  refine (proj2 (proj2 (proj2
    (strip_model_param_removes_fragment DQUOTE FLASH_EXP DQUOTE _ _ _)))
    call_head (NL :: spaces 8) call_tail _ _ _ _); try reflexivity.
  split; [discriminate|reflexivity].
Defined.

(** C10: no match of the stripping pattern begins anywhere inside the handle
    statement, whatever text follows it: the inserted argument is matched
    when a comma follows its closing quote and only then, and in the handle
    a blank follows.  So the stripping step keeps every handle statement,
    and every document with the call pattern comes out of the pipeline with
    the handle bound to [gemini-2.0-flash-exp]. *)
Theorem handle_binding_survives_strip :
  untouched model_param HANDLE
  /\ contains (INSERTED_ARG ++ str " }") HANDLE = true
  /\ (forall c z, model_param (INSERTED_ARG ++ c :: z) <> None <-> c = COMMA)
  /\ (forall s, contains HANDLE s = true ->
        contains HANDLE (strip_model_param s) = true)
  /\ (forall s, contains CALL_PATTERN s = true ->
        contains HANDLE (transform s) = true).
Proof.
  split; [exact model_param_untouched_HANDLE|].
  split; [reflexivity|]. split; [|split].
  - intros c z. unfold model_param, INSERTED_ARG.
    rewrite match_fragment;
      [|reflexivity|split; [discriminate|reflexivity]|reflexivity].
    split.
    + intros H. destruct (N.eq_dec c COMMA) as [->|Hc]; [reflexivity|].
      now rewrite closing_no_comma in H.
    + intros ->. rewrite closing_comma; [discriminate|simpl; lia|reflexivity].
  - exact strip_keeps_HANDLE.
  - intros s H. apply (contains_trans _ REPL_PRIMARY); [reflexivity|].
    now apply transform_inserts_rewrite.
Qed.

Lemma handle_binding_survives_strip_witness :
  contains HANDLE (transform bare_call) = true.
Proof.
  apply (proj2 (proj2 (proj2 (proj2 handle_binding_survives_strip)))).
  reflexivity.
Defined.

(* ===================================================================== *)
(** ** The whole pipeline *)

Lemma transform_unfold (s : Document) :
  transform s = strip_model_param (normalize_types (rewrite_primary s)).
Proof.
  unfold transform. now destruct (variant_noop s) as [-> _].
Qed.

(** C1, as stated, fails on its last part: a model argument that closes the
    argument list has no comma after it and stays inside the parentheses of
    the rewritten call.  The document is the call on its line, indented by
    four blanks, the model argument on the next, and the closing line. *)
Lemma transform_leaves_last_model_argument :
  contains CALL_PATTERN LAST_ARG_CALL = true
  /\ transform LAST_ARG_CALL
     = spaces 4 ++ REPL_PRIMARY ++ str "{" ++ NL :: spaces 8
         ++ GEMINI_PRO_ARG ++ NL :: spaces 4 ++ str "});"
  /\ contains (str "model.generateContent({" ++ NL :: spaces 8
                 ++ GEMINI_PRO_ARG ++ NL :: spaces 4 ++ str "})")
       (transform LAST_ARG_CALL) = true.
Proof. repeat split; reflexivity. Qed.

(** C1, amended: every document with the call pattern comes out with the
    handle statement bound to [gemini-2.0-flash-exp], a line break, eight
    blanks and the call through the handle; and wherever the rewritten text
    (after steps 2 to 4) holds a model argument followed by a comma, the
    output is what the stripping step makes of the text before it, then of
    the text after the comma and its white space. *)
Theorem transform_rewrites_call (s : Document) :
  contains CALL_PATTERN s = true ->
  contains REPL_PRIMARY (transform s) = true
  /\ forall u q lit q' ws v,
       normalize_types (rewrite_primary s)
       = u ++ fragment q lit q' ++ COMMA :: ws ++ v ->
       is_quote q = true -> literal_body lit -> is_quote q' = true ->
       List.forallb is_space ws = true -> no_leading_space v ->
       transform s = strip_model_param u ++ strip_model_param v.
Proof.
  intros H. split; [now apply transform_inserts_rewrite|].
  intros u q lit q' ws v E Hq Hlit Hq' Hws Hv.
  rewrite transform_unfold, E. now apply strip_fragment.
Qed.

Lemma transform_rewrites_call_witness :
  contains REPL_PRIMARY (transform FIRST_ARG_CALL) = true
  /\ transform FIRST_ARG_CALL
     = strip_model_param (spaces 4 ++ REPL_PRIMARY ++ str "{" ++ NL :: spaces 8)
       ++ strip_model_param
            (str "contents: prompt," ++ NL :: spaces 4 ++ str "});").
Proof.
  destruct (transform_rewrites_call FIRST_ARG_CALL eq_refl) as [H1 H2].
  split; [exact H1|].
  apply (H2 _ DQUOTE (str "2.5-flash") DQUOTE (NL :: spaces 8));
    try reflexivity.
  split; [discriminate|reflexivity].
Defined.

(** *** Running the pipeline on its own output *)

Lemma model_param_deletes (s : Document) (n : nat) (r : Document) :
  model_param s = Some (n, r) -> r = [].
Proof.
  unfold model_param. destruct (match_model_param s); [|discriminate].
  now intros [= _ <-].
Qed.

Lemma strip_length (s : Document) :
  length (strip_model_param s) <= length s
  /\ (finds model_param s = true -> length (strip_model_param s) < length s).
Proof.
  unfold strip_model_param, re_sub.
  induction s as [s IH] using list_length_ind.
  destruct s as [|c t].
  - split; [reflexivity|]. simpl.
    destruct (model_param []) as [[n r]|] eqn:E; [|discriminate].
    now destruct (model_param_sound _ _ _ E).
  - destruct (model_param (c :: t)) as [[n r]|] eqn:E.
    + destruct (model_param_sound _ _ _ E) as [Hn Hne].
      rewrite (scan_hit _ _ _ _ E Hn Hne), (model_param_deletes _ _ _ E).
      cbn [app].
      assert (Hl : length (List.skipn n (c :: t)) < length (c :: t))
        by (rewrite List.length_skipn; simpl; lia).
      destruct (IH _ Hl) as [H1 _]. split; [lia|intros _; lia].
    + rewrite (scan_miss _ _ _ E).
      destruct (IH t ltac:(simpl; lia)) as [H1 H2].
      split; [simpl; lia|]. cbn [finds]. rewrite E. simpl.
      intros H. apply H2 in H. lia.
Qed.

(** A stripping step that changed nothing found nothing. *)
Lemma strip_fixed (s : Document) :
  strip_model_param s = s -> finds model_param s = false.
Proof.
  intros H. destruct (finds model_param s) eqn:E; [|reflexivity].
  apply (proj2 (strip_length s)) in E. rewrite H in E. lia.
Qed.

Lemma normalize_types_leaves_none (k : EnumTag) (s : Document) :
  contains (token k) (normalize_types s) = false.
Proof.
  unfold normalize_types.
  destruct k;
    repeat first
      [ apply str_replace_leaves_none;
        [apply token_nonempty|reflexivity|reflexivity]
      | apply replace_tag_creates_none ].
Qed.

Lemma normalize_types_no_call (s : Document) :
  contains CALL_PATTERN s = false ->
  contains CALL_PATTERN (normalize_types s) = false.
Proof.
  intros H. unfold normalize_types, replace_tag.
  repeat (apply str_replace_creates_none;
          [apply token_nonempty|reflexivity|reflexivity|]).
  exact H.
Qed.

(** C3, as stated, fails: where the stripping step deletes a model argument
    out of the middle of the call pattern, the first run leaves a call
    pattern behind, and the second run rewrites it and adds a second handle
    statement. *)
Lemma second_run_adds_handle :
  transform SPLICED = REPL_PRIMARY ++ CALL_PATTERN
  /\ occurrences HANDLE (transform SPLICED) = 1
  /\ occurrences HANDLE (transform (transform SPLICED)) = 2
  /\ transform (transform SPLICED) <> transform SPLICED.
Proof. split; [reflexivity|split; [reflexivity|split; [reflexivity|]]].
  discriminate.
Qed.

(** C3, amended: a second run changes nothing, and so adds no handle
    statement, when the stripping step of the first run found nothing to
    delete, or more generally when the output of the first run holds none of
    the target patterns. *)
Theorem second_run_is_identity (s : Document) :
  strip_model_param (normalize_types (rewrite_primary s))
    = normalize_types (rewrite_primary s)
  \/ (contains CALL_PATTERN (transform s) = false
      /\ (forall k, contains (token k) (transform s) = false)
      /\ finds model_param (transform s) = false) ->
  transform (transform s) = transform s
  /\ occurrences HANDLE (transform (transform s))
     = occurrences HANDLE (transform s).
Proof.
  intros H.
  assert (E : transform (transform s) = transform s); [|now rewrite E].
  destruct H as [H|(Hc & Ht & Hm)].
  - apply transform_fixes_clean; rewrite transform_unfold, H.
    + apply normalize_types_no_call, rewrite_primary_consumes.
    + intros k. apply normalize_types_leaves_none.
    + now apply strip_fixed.
  - now apply transform_fixes_clean.
Qed.

Lemma second_run_is_identity_witness :
  transform (transform TYPED_CALL) = transform TYPED_CALL
  /\ occurrences HANDLE (transform (transform TYPED_CALL))
     = occurrences HANDLE (transform TYPED_CALL).
Proof.
  apply second_run_is_identity. left. reflexivity.
Defined.

(* ===================================================================== *)
(** ** Further properties of the steps *)

Lemma self_apart_spec (p : Document) (i : nat) :
  self_apart p = true -> 0 < i -> i < length p ->
  agree p (List.skipn i p) = false.
Proof.
  unfold self_apart. rewrite List.forallb_forall. intros H H0 Hl.
  apply negb_true_iff, H, List.in_seq. lia.
Qed.

Lemma literal_within (old new s : Document) (n : nat) (r : Document) :
  literal old new s = Some (n, r) -> n <= length s.
Proof.
  unfold literal. destruct (starts_with old s) eqn:E; [|discriminate].
  intros [= <- <-]. now apply starts_with_length.
Qed.

(** In front of an occurrence of a pattern that cannot overlap itself, the
    pattern matches as if the text ended there. *)
Lemma literal_local (old new a v : Document) :
  self_apart old = true -> a <> [] ->
  literal old new (a ++ old ++ v) = literal old new a.
Proof.
  intros Hself Ha. unfold literal.
  destruct (le_lt_dec (length old) (length a)) as [Hle|Hlt].
  - now rewrite (starts_with_app_l _ _ (old ++ v) [] Hle), app_nil_r.
  - assert (Ea : starts_with old a = false).
    { destruct (starts_with old a) eqn:E; [|reflexivity].
      apply starts_with_length in E. lia. }
    rewrite Ea.
    destruct (starts_with old (a ++ old ++ v)) eqn:E; [|reflexivity].
    exfalso.
    assert (Hpos : 0 < length a) by (destruct a; [congruence|simpl; lia]).
    pose proof (self_apart_spec old (length a) Hself Hpos Hlt) as Hno.
    pose proof (starts_with_split _ _ E) as Hsplit.
    assert (Hs : List.skipn (length a) (a ++ old ++ v) = old ++ v)
      by apply skipn_app_length.
    rewrite Hsplit, skipn_app_le in Hs by lia.
    assert (Hag : starts_with old
                    (List.skipn (length a) old
                     ++ List.skipn (length old) (a ++ old ++ v)) = true)
      by (rewrite Hs; apply starts_with_app).
    apply starts_with_agree in Hag. congruence.
Qed.

(** [s.replace(old, new)] works on both sides of an occurrence of such a
    pattern independently. *)
Lemma str_replace_splits (old new u v : Document) :
  old <> [] -> self_apart old = true ->
  str_replace old new (u ++ old ++ v)
  = str_replace old new u ++ new ++ str_replace old new v.
Proof.
  intros Hold Hself. unfold str_replace.
  pose proof (literal_sound old new Hold) as Hs.
  rewrite scan_app_local.
  - f_equal.
    pose proof (literal_hit old new _ (starts_with_app old v)) as Hm.
    destruct (Hs _ _ _ Hm) as [Hn Hne].
    rewrite (scan_hit _ _ _ _ Hm Hn Hne). now rewrite skipn_app_length.
  - exact Hs.
  - apply literal_within.
  - intros a Ha. now apply literal_local.
Qed.

(** X1: step 2 rewrites an occurrence of the call pattern wherever it
    stands: the text before it and the text after it are rewritten on their
    own and the replacement text stands between them. *)
Theorem rewrite_primary_splits (u v : Document) :
  rewrite_primary (u ++ CALL_PATTERN ++ v)
  = rewrite_primary u ++ REPL_PRIMARY ++ rewrite_primary v.
Proof.
  apply str_replace_splits; [exact CALL_PATTERN_nonempty|reflexivity].
Qed.

Lemma replace_in_order_object_first (ks : list EnumTag) (s : Document) :
  ~ List.In OBJECT (List.tl ks) ->
  replace_in_order ks s = scan (any_token ks) s.
Proof.
  induction ks as [|k ks IH] using List.rev_ind; intros Hno.
  - symmetry. apply any_token_nil_scan.
  - rewrite replace_in_order_snoc. destruct ks as [|k0 ks].
    + cbn [replace_in_order List.fold_left].
      rewrite <- (any_token_nil_scan s) at 1.
      apply replace_after_any_token, inner_free_nil.
    + cbn [app List.tl] in Hno. rewrite IH.
      * apply replace_after_any_token, inner_free_static.
        intros ->. apply Hno, List.in_or_app. right. now left.
      * cbn [List.tl]. intros Hin. apply Hno, List.in_or_app. now left.
Qed.

(** X2: on every document, overlapping occurrences or not, the five
    substitutions in the order of the script do what a single pass from
    left to right does that puts the quoted string wherever one of the five
    tokens begins and resumes behind the token; and so does every order of
    the five that begins with [Type.OBJECT]. *)
Theorem object_first_orders_are_one_pass (order : list EnumTag)
    (s : Document) :
  Permutation order all_tags -> ~ List.In OBJECT (List.tl order) ->
  normalize_types s = re_sub (any_token all_tags) s
  /\ replace_in_order order s = normalize_types s.
Proof.
  intros HP Hno. split; [apply normalize_types_scan|].
  rewrite normalize_types_scan, (replace_in_order_object_first order s Hno).
  apply scan_ext. intros y. now apply any_token_permutation.
Qed.

Lemma object_first_orders_are_one_pass_witness :
  replace_in_order [OBJECT; BOOLEAN; INTEGER; ARRAY; STRING] OVERLAPPING
  = normalize_types OVERLAPPING.
Proof.
  refine (proj2 (object_first_orders_are_one_pass _ OVERLAPPING _ _)).
  - apply NoDup_Permutation.
    + repeat (apply NoDup_cons_2 || apply NoDup_nil_2);
        rewrite ?list_elem_of_In; simpl; intuition discriminate.
    + repeat (apply NoDup_cons_2 || apply NoDup_nil_2);
        rewrite ?list_elem_of_In; simpl; intuition discriminate.
    + intros []; rewrite !list_elem_of_In; simpl; intuition discriminate.
  - simpl. intuition discriminate.
Defined.

(** X3: running step 2 again on its output, or step 4 again on its output,
    changes nothing. *)
Theorem rewrite_and_normalize_idempotent (s : Document) :
  rewrite_primary (rewrite_primary s) = rewrite_primary s
  /\ normalize_types (normalize_types s) = normalize_types s.
Proof.
  split.
  - apply rewrite_primary_absent, rewrite_primary_consumes.
  - apply normalize_types_absent. intros k. apply normalize_types_leaves_none.
Qed.

(** X4: whatever the document, step 4 leaves none of the five tokens in it,
    and the text that reaches the stripping step holds neither a token nor
    the call pattern. *)
Theorem before_strip_no_pattern_left (s : Document) :
  (forall k, contains (token k) (normalize_types s) = false)
  /\ contains CALL_PATTERN
       (normalize_types (rewrite_variant (rewrite_primary s))) = false.
Proof.
  split.
  - intros k. apply normalize_types_leaves_none.
  - destruct (variant_noop s) as [-> _].
    apply normalize_types_no_call, rewrite_primary_consumes.
Qed.

Lemma run_length_prefix (f : char -> bool) (s : Document) :
  List.forallb f (List.firstn (run_length f s) s) = true.
Proof.
  induction s as [|c t IH]; simpl; [reflexivity|].
  destruct (f c) eqn:E; simpl; [now rewrite E|reflexivity].
Qed.

Lemma run_length_rest (f : char -> bool) (s : Document) :
  match List.skipn (run_length f s) s with
  | [] => True
  | x :: _ => f x = false
  end.
Proof.
  induction s as [|c t IH]; simpl; [exact I|].
  destruct (f c) eqn:E; [exact IH|exact E].
Qed.

Lemma fragment_length (q : char) (lit : Document) (q' : char) :
  length (fragment q lit q')
  = length MODEL_KEY + 1 + length GEMINI + length lit + 1.
Proof.
  unfold fragment. rewrite length_app. cbn [length].
  rewrite !length_app. cbn [length]. lia.
Qed.

(** What the pattern matches is a fragment, a comma and white space. *)
Lemma match_model_param_inv (s : Document) (n : nat) :
  match_model_param s = Some n ->
  exists q lit q' ws rest,
    s = fragment q lit q' ++ COMMA :: ws ++ rest
    /\ is_quote q = true /\ literal_body lit /\ is_quote q' = true
    /\ List.forallb is_space ws = true /\ no_leading_space rest
    /\ n = length (fragment q lit q') + 1 + length ws.
Proof.
  unfold match_model_param.
  destruct (eat MODEL_KEY s) as [[|q r]|] eqn:E1; try discriminate.
  destruct (is_quote q) eqn:Hq; [|discriminate].
  destruct (eat GEMINI r) as [body|] eqn:E2; [|discriminate].
  cbv zeta. unfold closing.
  pose proof (run_length_prefix lit_char body) as Hlit.
  pose proof (run_length_le lit_char body) as Hle.
  destruct (run_length lit_char body) as [|j] eqn:Ej; [discriminate|].
  destruct (List.skipn (S j) body) as [|q' [|c ws0]] eqn:E3; try discriminate.
  destruct (is_quote q') eqn:Hq'; [|discriminate].
  destruct (N.eqb c COMMA) eqn:Hc; [|discriminate].
  apply N.eqb_eq in Hc as ->. intros [= <-].
  apply eat_split in E1, E2. subst s r.
  pose proof (List.firstn_skipn (S j) body) as Hbody. rewrite E3 in Hbody.
  pose proof (List.firstn_skipn (run_length is_space ws0) ws0) as Hws.
  exists q, (List.firstn (S j) body), q',
    (List.firstn (run_length is_space ws0) ws0),
    (List.skipn (run_length is_space ws0) ws0).
  assert (Hlen : length (List.firstn (S j) body) = S j)
    by (apply List.firstn_length_le; lia).
  refine (conj _ (conj Hq (conj (conj _ Hlit)
            (conj Hq' (conj _ (conj _ _)))))).
  - unfold fragment. rewrite Hws, <- Hbody at 1.
    repeat (rewrite <- app_assoc; cbn [app]). reflexivity.
  - intros E. rewrite E in Hlen. discriminate.
  - apply run_length_prefix.
  - exact (run_length_rest is_space ws0).
  - rewrite fragment_length, Hlen.
    rewrite List.firstn_length_le by apply run_length_le.
    change (length MODEL_KEY) with 7. change (length GEMINI) with 7. lia.
Qed.

(** X5: the stripping pattern matches at the start of a text exactly when
    the text begins with [model: ], a quote, [gemini-], one or more
    characters other than quotes and commas, a quote and a comma; the match
    then takes in the white space after the comma as far as it goes, and
    nothing else. *)
Theorem match_model_param_shape (s : Document) (n : nat) :
  match_model_param s = Some n <->
  exists q lit q' ws rest,
    s = fragment q lit q' ++ COMMA :: ws ++ rest
    /\ is_quote q = true /\ literal_body lit /\ is_quote q' = true
    /\ List.forallb is_space ws = true /\ no_leading_space rest
    /\ n = length (fragment q lit q') + 1 + length ws.
Proof.
  split; [apply match_model_param_inv|].
  intros (q & lit & q' & ws & rest & -> & Hq & Hlit & Hq' & Hws & Hrest & ->).
  rewrite (match_fragment _ _ _ _ _ Hq Hlit Hq').
  destruct Hlit as [Hne Hl].
  rewrite closing_comma, (run_length_spaces _ _ Hws Hrest);
    [|destruct lit; [congruence|simpl; lia]|exact Hq'].
  rewrite fragment_length. f_equal. lia.
Qed.

Lemma match_model_param_shape_witness :
  match_model_param (INSERTED_ARG ++ COMMA :: (NL :: spaces 8) ++ call_tail)
  = Some (length INSERTED_ARG + 1 + length (NL :: spaces 8)).
Proof.
  apply match_model_param_shape.
  exists DQUOTE, FLASH_EXP, DQUOTE, (NL :: spaces 8), call_tail.
  repeat split; try reflexivity. discriminate.
Defined.

Lemma strip_sublist (s : Document) : sublist (strip_model_param s) s.
Proof.
  unfold strip_model_param, re_sub.
  induction s as [s IH] using list_length_ind.
  destruct s as [|c t]; [constructor|].
  destruct (model_param (c :: t)) as [[n r]|] eqn:E.
  - destruct (model_param_sound _ _ _ E) as [Hn Hne].
    rewrite (scan_hit _ _ _ _ E Hn Hne), (model_param_deletes _ _ _ E).
    cbn [app]. transitivity (List.skipn n (c :: t)).
    + apply IH. rewrite List.length_skipn. simpl. lia.
    + apply sublist_drop.
  - rewrite (scan_miss _ _ _ E). apply sublist_skip, IH. simpl. lia.
Qed.

(** X6: the stripping step only deletes: its output is the input with some
    characters left out, in the same order, and it is the input itself
    exactly when the pattern matches nowhere in it. *)
Theorem strip_model_param_only_deletes (s : Document) :
  sublist (strip_model_param s) s
  /\ (strip_model_param s = s <-> finds model_param s = false).
Proof.
  split; [apply strip_sublist|]. split.
  - apply strip_fixed.
  - apply strip_model_param_absent.
Qed.

(** X7: a handle statement that the document already holds is still there
    after the whole pipeline. *)
Theorem transform_keeps_handle (s : Document) :
  contains HANDLE s = true -> contains HANDLE (transform s) = true.
Proof.
  intros H. unfold transform. apply strip_keeps_HANDLE.
  unfold normalize_types, replace_tag.
  repeat (apply str_replace_keeps;
          [apply token_nonempty|reflexivity|reflexivity|]).
  unfold rewrite_variant, rewrite_primary, re_sub.
  do 2 (apply (str_replace_keeps CALL_PATTERN);
        [exact CALL_PATTERN_nonempty|reflexivity|reflexivity|]).
  exact H.
Qed.

Lemma transform_keeps_handle_witness :
  contains HANDLE (transform two_calls) = true.
Proof. apply transform_keeps_handle. reflexivity. Defined.




(** X9: end to end, on a document with one occurrence of the call pattern
    between two texts that hold none, the pipeline puts the replacement
    text in its place and changes nothing else, provided the text so
    obtained holds no token and no match of the stripping pattern. *)
Theorem transform_single_call (u v : Document) :
  contains CALL_PATTERN u = false ->
  contains CALL_PATTERN v = false ->
  (forall k, contains (token k) (u ++ REPL_PRIMARY ++ v) = false) ->
  finds model_param (u ++ REPL_PRIMARY ++ v) = false ->
  transform (u ++ CALL_PATTERN ++ v) = u ++ REPL_PRIMARY ++ v.
Proof.
  intros Hu Hv Ht Hm. rewrite transform_unfold.
  unfold rewrite_primary, re_sub.
  change (scan (literal CALL_PATTERN REPL_PRIMARY))
    with (str_replace CALL_PATTERN REPL_PRIMARY).
  rewrite str_replace_splits by (exact CALL_PATTERN_nonempty || reflexivity).
  rewrite (str_replace_absent _ _ u Hu), (str_replace_absent _ _ v Hv).
  rewrite (normalize_types_absent _ Ht).
  now apply strip_model_param_absent.
Qed.

Lemma transform_single_call_witness :
  transform (spaces 4 ++ CALL_PATTERN ++ str "{ contents: prompt });")
  = spaces 4 ++ REPL_PRIMARY ++ str "{ contents: prompt });".
Proof.
  apply transform_single_call.
  - reflexivity.
  - reflexivity.
  - intros []; reflexivity.
  - reflexivity.
Defined.
